(** * gitlab-mcp: session registry, client pool and event store

    A shallow embedding of [src/inMemoryEventStore.ts] (the classes
    [InMemoryEventStore] and [DynamicGitLabConfigManager] with its zod schema)
    and of the session client module ([SessionAwareGitLabClient],
    [SessionClientManager]), followed by the properties of the specification
    that were checked against them.

    Conventions of the embedding.
    - A JavaScript [Map] is an insertion-ordered association list with unique
      keys ([JsMap]); iteration order is the list order.
    - [Date.now()], [new Date()] and [Math.random()] are reads of the
      environment: every function that performs one takes the value read as
      an argument, one argument per read, in program order.
    - A [Date] is its time value in milliseconds, an integer ([Z]).
    - An [async] method that awaits a caller-supplied callback is a
      computation in a state-and-rejection monad over the consumer's state. *)

From Stdlib Require Import List String Ascii ZArith Lia Bool.
From Stdlib Require Import Permutation Sorted DecimalString SpecFloat.
From Stdlib Require Import OrderedTypeEx.
Import ListNotations.

Local Open Scope string_scope.
Local Open Scope list_scope.

(* ================================================================== *)
(** * JavaScript strings *)
(* ================================================================== *)

Module JsString.

(** [s.split(sep)] for a one-character separator: never empty, and
    the split of the empty string is the one-element list of the empty
    string. *)
Fixpoint split (sep : ascii) (s : string) : list string :=
  match s with
  | EmptyString => [EmptyString]
  | String c rest =>
      if Ascii.eqb c sep then EmptyString :: split sep rest
      else match split sep rest with
           | part :: parts => String c part :: parts
           | [] => [String c EmptyString]
           end
  end.

(** [parts.join(sep)]. *)
Fixpoint join (sep : string) (parts : list string) : string :=
  match parts with
  | [] => EmptyString
  | [p] => p
  | p :: rest => (p ++ sep ++ join sep rest)%string
  end.

(** Does the character occur in the string? *)
Fixpoint mem (c : ascii) (s : string) : bool :=
  match s with
  | EmptyString => false
  | String d rest => Ascii.eqb d c || mem c rest
  end.

(** A string is truthy when it is not empty. *)
Definition truthy (s : string) : bool :=
  match s with EmptyString => false | String _ _ => true end.

(** [String(n)] for an integral number: decimal digits, a leading minus
    sign for a negative one. *)
Definition of_integer (n : Z) : string :=
  NilZero.string_of_int (Z.to_int n).

(** [s] occurs in [t] as a contiguous piece. *)
Definition substring_of (s t : string) : Prop :=
  exists before after, t = (before ++ s ++ after)%string.

(** [s.replace(/\/$/, e)] for the empty string [e]: one slash at the very end is dropped. *)
Fixpoint drop_trailing_slash (s : string) : string :=
  match s with
  | EmptyString => EmptyString
  | String c rest =>
      match rest with
      | EmptyString => if Ascii.eqb c "/" then EmptyString else s
      | String _ _ => String c (drop_trailing_slash rest)
      end
  end.

(** [s.replace(/^\//, e)] for the empty string [e]: one slash at the very start is dropped. *)
Definition drop_leading_slash (s : string) : string :=
  match s with
  | String c rest => if Ascii.eqb c "/" then rest else s
  | EmptyString => EmptyString
  end.

(** [hay.includes(needle)]. *)
Fixpoint includes (needle hay : string) : bool :=
  String.prefix needle hay
  || match hay with
     | EmptyString => false
     | String _ rest => includes needle rest
     end.

(** The last character of a string, if any. *)
Fixpoint last_char (s : string) : option ascii :=
  match s with
  | EmptyString => None
  | String c rest =>
      match rest with
      | EmptyString => Some c
      | String _ _ => last_char rest
      end
  end.

Definition first_char (s : string) : option ascii :=
  match s with
  | EmptyString => None
  | String c _ => Some c
  end.

End JsString.

(* ================================================================== *)
(** * JavaScript [Map] with string keys *)
(* ================================================================== *)

Module JsMap.
Section Ops.
Context {V : Type}.

(** Entries in insertion order. *)
Definition t : Type := list (string * V).

Definition empty : t := [].

Fixpoint get (m : t) (k : string) : option V :=
  match m with
  | [] => None
  | (k', v) :: rest => if String.eqb k' k then Some v else get rest k
  end.

Definition has (m : t) (k : string) : bool :=
  match get m k with Some _ => true | None => false end.

(** [m.set(k, v)]: an existing key keeps its place, a new one goes last. *)
Fixpoint set (m : t) (k : string) (v : V) : t :=
  match m with
  | [] => [(k, v)]
  | (k', v') :: rest =>
      if String.eqb k' k then (k, v) :: rest else (k', v') :: set rest k v
  end.

(** [m.delete(k)]; the boolean JavaScript returns is [has m k]. *)
Definition delete (m : t) (k : string) : t :=
  filter (fun e => negb (String.eqb (fst e) k)) m.

Definition keys (m : t) : list string := map fst m.
Definition values (m : t) : list V := map snd m.
Definition entries (m : t) : list (string * V) := m.
Definition size (m : t) : Z := Z.of_nat (List.length m).

(** [ks.forEach(k => m.delete(k))]. *)
Definition delete_all (m : t) (ks : list string) : t :=
  fold_left delete ks m.

(** [{...target, ...source}] on objects, whose own keys keep insertion
    order as a [Map]'s do: a key of [source] that [target] has keeps its
    place and takes the value of [source]. *)
Definition assign (target source : t) : t :=
  fold_left (fun m e => set m (fst e) (snd e)) source target.

(** The invariant of a [Map]: no key twice. *)
Definition wf (m : t) : Prop := NoDup (keys m).
End Ops.
Arguments t : clear implicits.
End JsMap.

(* ================================================================== *)
(** * [Array.prototype.sort] and [slice] *)
(* ================================================================== *)

Module JsArray.
Section Sort.
Context {A : Type}.
(** The comparator: negative when the first argument goes first, positive
    when the second does, zero when the order is to be kept. *)
Variable cmp : A -> A -> Z.

Fixpoint insert (x : A) (l : list A) : list A :=
  match l with
  | [] => [x]
  | y :: rest => if (cmp x y <=? 0)%Z then x :: l else y :: insert x rest
  end.

(** [sort] is stable (ECMAScript 2019): for a consistent comparator the
    outcome is the one sorted arrangement that keeps equal elements in
    their original order, which is what stable insertion computes. *)
Fixpoint sort (l : list A) : list A :=
  match l with
  | [] => []
  | x :: rest => insert x (sort rest)
  end.

Definition le (x y : A) : Prop := (cmp x y <= 0)%Z.

(** A consistent comparator in the sense of ECMA-262. *)
Record consistent : Prop := {
  cmp_flip_lt : forall a b, (cmp a b < 0)%Z -> (0 < cmp b a)%Z;
  cmp_flip_gt : forall a b, (0 < cmp a b)%Z -> (cmp b a < 0)%Z;
  cmp_trans : forall a b c, le a b -> le b c -> le a c
}.
End Sort.

(** [l.slice(0, end)]: a negative [end] counts from the back. *)
Definition slice0 {A : Type} (l : list A) (end_ : Z) : list A :=
  let len := Z.of_nat (List.length l) in
  let final := if (end_ <? 0)%Z then Z.max (len + end_) 0 else Z.min end_ len in
  firstn (Z.to_nat final) l.
End JsArray.

(* ================================================================== *)
(** * Awaiting a callback *)
(* ================================================================== *)

(** An [async] function over a consumer whose state has type [W]: it ends
    resolved with a value or rejected, and leaves the consumer in some
    state. [await] of a rejected promise rejects the caller at once. *)
Module Async.
Section Monad.
Context {W : Type}.

Definition t (A : Type) : Type := W -> option A * W.

Definition ret {A : Type} (a : A) : t A := fun w => (Some a, w).

Definition bind {A B : Type} (c : t A) (k : A -> t B) : t B :=
  fun w =>
    match c w with
    | (Some a, w') => k a w'
    | (None, w') => (None, w')
    end.
(** [for (const a of l) await f(a)]. *)
Fixpoint for_each {A : Type} (f : A -> t unit) (l : list A) : t unit :=
  match l with
  | [] => ret tt
  | a :: rest => bind (f a) (fun _ => for_each f rest)
  end.
End Monad.
Arguments t : clear implicits.

Module Notations.
Notation "x <- c ;; k" := (bind c (fun x => k))
  (at level 61, c at next level, right associativity).
Notation "c ;;; k" := (bind c (fun _ => k))
  (at level 61, right associativity).
End Notations.

(** The consumer that records every call and always resolves. *)
Definition record {K M : Type} (eventId : K) (message : M) : t (list (K * M)) unit :=
  fun calls => (Some tt, calls ++ [(eventId, message)]).
End Async.

(* ================================================================== *)
(** * [InMemoryEventStore] *)
(* ================================================================== *)

Module EventStore.
Import Async.Notations.

Section Store.
(** [JSONRPCMessage] is opaque to the store. *)
Context {Message : Type}.

Record StoredEvent : Type := { streamId : string; message : Message }.

(** The field [events]. *)
Definition Events : Type := JsMap.t StoredEvent.

(** [generateEventId]: [now] is the value of [Date.now()] and [rnd] the
    value of [Math.random().toString(36).substring(2, 10)], at most eight
    digits in base 36. *)
Definition generateEventId (now : Z) (rnd : string) (streamId : string) : string :=
  streamId ++ "_" ++ JsString.of_integer now ++ "_" ++ rnd.

Definition getStreamIdFromEventId (eventId : string) : string :=
  match JsString.split "_" eventId with
  | part :: _ => part
  | [] => EmptyString
  end.

(** [storeEvent]: the generated id and the store after the call. *)
Definition storeEvent (now : Z) (rnd : string) (events : Events)
    (streamId : string) (message : Message) : string * Events :=
  let eventId := generateEventId now rnd streamId in
  (eventId, JsMap.set events eventId (Build_StoredEvent streamId message)).

Section Replay.
(** [String.prototype.localeCompare] is the host's collation; the store
    only hands it to [sort]. *)
Variable localeCompare : string -> string -> Z.
Context {W : Type}.
Variable send : string -> Message -> Async.t W unit.

(** The [for ... of sortedEvents] loop, [foundLastEvent] threaded through. *)
Fixpoint replay_loop (streamId lastEventId : string)
    (sortedEvents : list (string * StoredEvent)) (foundLastEvent : bool)
    : Async.t W unit :=
  match sortedEvents with
  | [] => Async.ret tt
  | (eventId, Build_StoredEvent eventStreamId message) :: rest =>
      if negb (String.eqb eventStreamId streamId) then
        replay_loop streamId lastEventId rest foundLastEvent
      else if String.eqb eventId lastEventId then
        replay_loop streamId lastEventId rest true
      else if foundLastEvent then
        send eventId message ;;; replay_loop streamId lastEventId rest foundLastEvent
      else replay_loop streamId lastEventId rest foundLastEvent
  end.

Definition compareEntries (a b : string * StoredEvent) : Z :=
  localeCompare (fst a) (fst b).

Definition replayEventsAfter (events : Events) (lastEventId : string)
    : Async.t W string :=
  if negb (JsString.truthy lastEventId) || negb (JsMap.has events lastEventId)
  then Async.ret EmptyString
  else
    let streamId := getStreamIdFromEventId lastEventId in
    if negb (JsString.truthy streamId) then Async.ret EmptyString
    else
      let sortedEvents := JsArray.sort compareEntries (JsMap.entries events) in
      replay_loop streamId lastEventId sortedEvents false ;;;
      Async.ret streamId.
End Replay.

Definition clearStream (events : Events) (streamId : string) : Events :=
  let eventsToDelete :=
    filter (fun eventId => String.eqb (getStreamIdFromEventId eventId) streamId)
           (JsMap.keys events) in
  JsMap.delete_all events eventsToDelete.

Definition getEventCount (events : Events) : Z := JsMap.size events.

Definition getStreamEventCount (events : Events) (streamId : string) : Z :=
  Z.of_nat
    (List.length
       (filter (fun '(Build_StoredEvent eventStreamId _) =>
                  String.eqb eventStreamId streamId)
               (JsMap.values events))).

(** The arguments of the [send] calls the loop reaches, in order, when no
    call is rejected. *)
Fixpoint events_to_send (streamId lastEventId : string)
    (sortedEvents : list (string * StoredEvent)) (foundLastEvent : bool)
    : list (string * Message) :=
  match sortedEvents with
  | [] => []
  | (eventId, Build_StoredEvent eventStreamId message) :: rest =>
      if negb (String.eqb eventStreamId streamId) then
        events_to_send streamId lastEventId rest foundLastEvent
      else if String.eqb eventId lastEventId then
        events_to_send streamId lastEventId rest true
      else if foundLastEvent then
        (eventId, message)
        :: events_to_send streamId lastEventId rest foundLastEvent
      else events_to_send streamId lastEventId rest foundLastEvent
  end.

(** One call of [storeEvent], with what the environment supplies to it. *)
Record Append : Type := {
  app_stream : string;
  app_message : Message;
  app_now : Z;
  app_rnd : string
}.

Definition append_id (a : Append) : string :=
  generateEventId (app_now a) (app_rnd a) (app_stream a).

Definition append (events : Events) (a : Append) : Events :=
  snd (storeEvent (app_now a) (app_rnd a) events (app_stream a) (app_message a)).

(** The store after a sequence of appends to a new store. *)
Definition appended (ops : list Append) : Events :=
  fold_left append ops JsMap.empty.

(** The entry an append writes. *)
Definition entry_of (a : Append) : string * StoredEvent :=
  (append_id a, Build_StoredEvent (app_stream a) (app_message a)).

Definition appends_to (streamId : string) (a : Append) : bool :=
  String.eqb (app_stream a) streamId.

Definition stored_in (streamId : string) (e : string * StoredEvent) : bool :=
  let '(_, Build_StoredEvent eventStreamId _) := e in
  String.eqb eventStreamId streamId.

(** The states a store can be in: new, then any calls of [storeEvent] and
    [clearStream]. *)
Inductive reachable : Events -> Prop :=
| reach_new : reachable JsMap.empty
| reach_store now rnd events streamId message :
    reachable events ->
    reachable (snd (storeEvent now rnd events streamId message))
| reach_clear events streamId :
    reachable events -> reachable (clearStream events streamId).

(** Every record is filed under a non-empty id whose parsed prefix is the
    stream id stored in the record. *)
Definition prefix_keyed (events : Events) : Prop :=
  forall eventId ev,
    In (eventId, ev) events ->
    getStreamIdFromEventId eventId = streamId ev
    /\ JsString.truthy eventId = true.

(** The states reached when every append is to a stream id without
    underscore. *)
Inductive reachable_plain : Events -> Prop :=
| plain_new : reachable_plain JsMap.empty
| plain_store now rnd events streamId message :
    reachable_plain events ->
    JsString.mem "_" streamId = false ->
    reachable_plain (snd (storeEvent now rnd events streamId message))
| plain_clear events streamId :
    reachable_plain events -> reachable_plain (clearStream events streamId).

End Store.
Arguments StoredEvent : clear implicits.
Arguments Events : clear implicits.
Arguments Append : clear implicits.

(** The replay as the list of [send] calls it makes, in order. *)
Definition replay_calls {Message : Type} (localeCompare : string -> string -> Z)
    (events : Events Message) (lastEventId : string)
    : option string * list (string * Message) :=
  replayEventsAfter localeCompare Async.record events lastEventId [].

End EventStore.

(** A comparator to evaluate the store with: the order of the code units.
    The host's collation agrees with it on two strings of one length that
    first differ at two digits or at two lowercase letters, which is the
    only kind of pair the evaluations below compare. *)
Definition codeUnitCompare (a b : string) : Z :=
  match String.compare a b with
  | Lt => (-1)%Z
  | Eq => 0%Z
  | Gt => 1%Z
  end.

(* ================================================================== *)
(** * Numbers: the arithmetic of [Math.floor(maxSessions * 0.1)] *)
(* ================================================================== *)

(** A JavaScript number is an IEEE 754 binary64 value; its product is the
    correctly rounded one of [SpecFloat]. *)
Module JsNumber.

Definition prec : Z := 53.
Definition emax : Z := 1024.

(** The number an integer literal or an integral count denotes. *)
Definition of_Z (z : Z) : spec_float := binary_normalize prec emax z 0 false.

(** The literal [0.1]: [0x1.999999999999ap-4]. *)
Definition tenth : spec_float := S754_finite false 7205759403792794 (-56).

Definition mul (x y : spec_float) : spec_float := SFmul prec emax x y.

(** [Math.floor] of a finite number, as an integer. NaN and the infinities,
    which no integral capacity below [2^1024] produces, are sent to [0]. *)
Definition floor (x : spec_float) : Z :=
  match x with
  | S754_finite s m e =>
      let v := if s then Z.neg m else Z.pos m in
      if (0 <=? e)%Z then (v * 2 ^ e)%Z else (v / 2 ^ (- e))%Z
  | _ => 0%Z
  end.


End JsNumber.

(* ================================================================== *)
(** * [DynamicConfigSchema] and [DynamicGitLabConfigManager] *)
(* ================================================================== *)

Module Config.

(** A property value of the untyped input: absent, a string, or a value of
    another type, of which the schema only reads the name zod gives the
    type ([number], [array], [null], ...). *)
Inductive JsValue : Type :=
| JsUndefined
| JsStringValue (s : string)
| JsOtherValue (parsedType : string).

(** [Record<string, any>]. *)
Definition QueryParams : Type := JsMap.t JsValue.

Definition prop (queryParams : QueryParams) (key : string) : JsValue :=
  match JsMap.get queryParams key with
  | Some v => v
  | None => JsUndefined
  end.

(** An entry of [ZodError.errors], as far as the manager reads it. *)
Record ZodIssue : Type := { path : list string; message : string }.

(** The literals of [z.enum(["true", "false"])]. *)
Inductive TrueFalse : Type := LitTrue | LitFalse.

Record DynamicConfig : Type := {
  api_url : string;
  access_token : string;
  project_id : option string;
  read_only : TrueFalse;
  use_wiki : TrueFalse;
  use_milestone : TrueFalse;
  use_pipeline : TrueFalse
}.

(** What a field's schema makes of the field's value. Each of the seven
    schemas raises at most one issue on a value. *)
Inductive FieldResult (A : Type) : Type :=
| Valid (a : A)
| Invalid (message : string).
Arguments Valid {A} a.
Arguments Invalid {A} message.

(** zod's message for a value that is not of the expected type. *)
Definition invalid_type (expected : string) (v : JsValue) : string :=
  match v with
  | JsUndefined => "Required"
  | JsStringValue _ => "Expected " ++ expected ++ ", received string"
  | JsOtherValue parsedType => "Expected " ++ expected ++ ", received " ++ parsedType
  end.

Section Schema.
(** Whether [new URL(s)] succeeds, which is zod's test behind [.url()]. *)
Variable isUrl : string -> bool.

(** [z.string().url(message)]. *)
Definition string_url (message : string) (v : JsValue) : FieldResult string :=
  match v with
  | JsStringValue s => if isUrl s then Valid s else Invalid message
  | _ => Invalid (invalid_type "string" v)
  end.

(** [z.string().min(1, message)]. *)
Definition string_min1 (message : string) (v : JsValue) : FieldResult string :=
  match v with
  | JsStringValue s =>
      if (String.length s <? 1)%nat then Invalid message else Valid s
  | _ => Invalid (invalid_type "string" v)
  end.

(** [z.string().optional()]. *)
Definition string_optional (v : JsValue) : FieldResult (option string) :=
  match v with
  | JsUndefined => Valid None
  | JsStringValue s => Valid (Some s)
  | JsOtherValue _ => Invalid (invalid_type "string" v)
  end.

(** [z.enum(["true", "false"]).optional().default("false")]. *)
Definition true_false (v : JsValue) : FieldResult TrueFalse :=
  match v with
  | JsUndefined => Valid LitFalse
  | JsStringValue s =>
      if String.eqb s "true" then Valid LitTrue
      else if String.eqb s "false" then Valid LitFalse
      else Invalid ("Invalid enum value. Expected 'true' | 'false', received '"
                    ++ s ++ "'")
  | JsOtherValue _ => Invalid (invalid_type "'true' | 'false'" v)
  end.

Definition issues_of {A : Type} (key : string) (r : FieldResult A) : list ZodIssue :=
  match r with
  | Valid _ => []
  | Invalid message => [Build_ZodIssue [key] message]
  end.

(** [DynamicConfigSchema.parse]: the record, or the issues of all the
    fields in the order of the schema's keys ([ZodError.errors]). Keys the
    schema does not name are dropped. *)
Definition DynamicConfigSchema_parse (queryParams : QueryParams)
    : DynamicConfig + list ZodIssue :=
  let r1 := string_url "Invalid GitLab API URL" (prop queryParams "api_url") in
  let r2 := string_min1 "Access token is required" (prop queryParams "access_token") in
  let r3 := string_optional (prop queryParams "project_id") in
  let r4 := true_false (prop queryParams "read_only") in
  let r5 := true_false (prop queryParams "use_wiki") in
  let r6 := true_false (prop queryParams "use_milestone") in
  let r7 := true_false (prop queryParams "use_pipeline") in
  match r1, r2, r3, r4, r5, r6, r7 with
  | Valid v1, Valid v2, Valid v3, Valid v4, Valid v5, Valid v6, Valid v7 =>
      inl (Build_DynamicConfig v1 v2 v3 v4 v5 v6 v7)
  | _, _, _, _, _, _, _ =>
      inr (issues_of "api_url" r1 ++ issues_of "access_token" r2
           ++ issues_of "project_id" r3 ++ issues_of "read_only" r4
           ++ issues_of "use_wiki" r5 ++ issues_of "use_milestone" r6
           ++ issues_of "use_pipeline" r7)
  end.
(** The issues the schema of one key raises. *)
Definition field_issues (queryParams : QueryParams) (key : string) : list ZodIssue :=
  let v := prop queryParams key in
  if String.eqb key "api_url" then
    issues_of key (string_url "Invalid GitLab API URL" v)
  else if String.eqb key "access_token" then
    issues_of key (string_min1 "Access token is required" v)
  else if String.eqb key "project_id" then issues_of key (string_optional v)
  else issues_of key (true_false v).

(** The keys of the schema, in its order. *)
Definition schema_keys : list string :=
  ["api_url"; "access_token"; "project_id"; "read_only"; "use_wiki";
   "use_milestone"; "use_pipeline"].

(** The specification's account of an offending field (its sections 4.1
    and 6), to compare the issues of the parse with: the URL is missing or
    malformed, the credential is missing or empty, the project identifier
    is present but no string, a toggle is present but neither of the two
    literals. *)
Definition offending (queryParams : QueryParams) (key : string) : bool :=
  let v := prop queryParams key in
  if String.eqb key "api_url" then
    match v with JsStringValue s => negb (isUrl s) | _ => true end
  else if String.eqb key "access_token" then
    match v with
    | JsStringValue s => match s with EmptyString => true | _ => false end
    | _ => true
    end
  else if String.eqb key "project_id" then
    match v with JsOtherValue _ => true | _ => false end
  else
    match v with
    | JsUndefined => false
    | JsStringValue s => negb (String.eqb s "true" || String.eqb s "false")
    | JsOtherValue _ => true
    end.
End Schema.

Record SessionConfig : Type := {
  sessionId : string;
  config : DynamicConfig;
  createdAt : Z;
  lastUsed : Z
}.

Definition touch (session : SessionConfig) (now : Z) : SessionConfig :=
  Build_SessionConfig (sessionId session) (config session) (createdAt session) now.

(** The fields of [DynamicGitLabConfigManager]; [sessionTimeout] is in
    milliseconds. *)
Record Manager : Type := {
  sessions : JsMap.t SessionConfig;
  maxSessions : Z;
  sessionTimeout : Z
}.

Definition with_sessions (m : Manager) (s : JsMap.t SessionConfig) : Manager :=
  Build_Manager s (maxSessions m) (sessionTimeout m).

(** The constructor; its defaults are [1000] and [60]. *)
Definition new_manager (maxSessions sessionTimeoutMinutes : Z) : Manager :=
  Build_Manager JsMap.empty maxSessions (sessionTimeoutMinutes * 60 * 1000).

Definition default_manager : Manager := new_manager 1000 60.

(** A call ends by returning a value or by throwing an [Error] with a
    message. *)
Inductive Outcome (A : Type) : Type :=
| Returned (a : A)
| Thrown (message : string).
Arguments Returned {A} a.
Arguments Thrown {A} message.

Definition format_issue (e : ZodIssue) : string :=
  JsString.join "." (path e) ++ ": " ++ message e.

Definition error_message (errors : list ZodIssue) : string :=
  "Invalid configuration parameters: "
  ++ JsString.join ", " (map format_issue errors).

Definition byLastUsed (a b : string * SessionConfig) : Z :=
  (lastUsed (snd a) - lastUsed (snd b))%Z.

(** The [sortedSessions] of [cleanupOldestSessions]: the entries it deletes. *)
Definition oldestSessions (count : Z) (m : Manager) : list (string * SessionConfig) :=
  JsArray.slice0 (JsArray.sort byLastUsed (JsMap.entries (sessions m))) count.

Definition cleanupOldestSessions (count : Z) (m : Manager) : Manager :=
  with_sessions m (JsMap.delete_all (sessions m) (map fst (oldestSessions count m))).

(** [Math.floor(this.maxSessions * 0.1)]. *)
Definition cleanupCount (maxSessions : Z) : Z :=
  JsNumber.floor (JsNumber.mul (JsNumber.of_Z maxSessions) JsNumber.tenth).

(** Does [cleanupCount] give the integer tenth on every capacity below [n]? *)
Definition cleanupCount_is_tenth_below (n : Z) : bool :=
  forallb (fun k => let z := Z.of_nat k in (cleanupCount z =? z / 10)%Z)
          (seq 0 (Z.to_nat n)).

(** [createSessionConfig]; [created] and [used] are the two [new Date()]
    of the record, in that order. *)
Definition createSessionConfig (isUrl : string -> bool) (created used : Z)
    (sessionId : string) (queryParams : QueryParams) (m : Manager)
    : Outcome SessionConfig * Manager :=
  match DynamicConfigSchema_parse isUrl queryParams with
  | inl config =>
      let sessionConfig := Build_SessionConfig sessionId config created used in
      let m1 :=
        if (maxSessions m <=? JsMap.size (sessions m))%Z
        then cleanupOldestSessions (cleanupCount (maxSessions m)) m
        else m in
      (Returned sessionConfig,
       with_sessions m1 (JsMap.set (sessions m1) sessionId sessionConfig))
  | inr errors => (Thrown (error_message errors), m)
  end.

(** [getSessionConfig]; [now] is the [Date.now()] of the expiry test and
    [refreshed] the [new Date()] stored on success. *)
Definition getSessionConfig (now refreshed : Z) (sessionId : string) (m : Manager)
    : option SessionConfig * Manager :=
  match JsMap.get (sessions m) sessionId with
  | None => (None, m)
  | Some session =>
      if (sessionTimeout m <? now - lastUsed session)%Z
      then (None, with_sessions m (JsMap.delete (sessions m) sessionId))
      else
        let session' := touch session refreshed in
        (Some session', with_sessions m (JsMap.set (sessions m) sessionId session'))
  end.

Definition removeSessionConfig (sessionId : string) (m : Manager) : bool * Manager :=
  (JsMap.has (sessions m) sessionId,
   with_sessions m (JsMap.delete (sessions m) sessionId)).

Definition getActiveSessionCount (m : Manager) : Z := JsMap.size (sessions m).

Definition expired (m : Manager) (now : Z) (session : SessionConfig) : bool :=
  (sessionTimeout m <? now - lastUsed session)%Z.

(** [cleanupExpiredSessions], the sweep the constructor schedules every
    five minutes. *)
Definition cleanupExpiredSessions (now : Z) (m : Manager) : Manager :=
  let expiredSessions :=
    map fst (filter (fun e => expired m now (snd e)) (JsMap.entries (sessions m))) in
  with_sessions m (JsMap.delete_all (sessions m) expiredSessions).

(** A call on the registry, with the clock readings it makes; the sweep is
    the timer's call. *)
Inductive RegistryCall : Type :=
| DoCreate (created used : Z) (sessionId : string) (queryParams : QueryParams)
| DoGet (now refreshed : Z) (sessionId : string)
| DoRemove (sessionId : string)
| DoSweep (now : Z).

Definition registry_step (isUrl : string -> bool) (m : Manager)
    (c : RegistryCall) : Manager :=
  match c with
  | DoCreate created used sessionId queryParams =>
      snd (createSessionConfig isUrl created used sessionId queryParams m)
  | DoGet now refreshed sessionId => snd (getSessionConfig now refreshed sessionId m)
  | DoRemove sessionId => snd (removeSessionConfig sessionId m)
  | DoSweep now => cleanupExpiredSessions now m
  end.

Definition registry_run (isUrl : string -> bool) (m : Manager)
    (calls : list RegistryCall) : Manager :=
  fold_left (registry_step isUrl) calls m.

(** A configuration as validation leaves it: the URL is one and the token
    is not empty. *)
Definition validated (isUrl : string -> bool) (c : DynamicConfig) : Prop :=
  isUrl (api_url c) = true /\ access_token c <> EmptyString.

(** What holds at all times of a registry constructed with capacity [max]
    and a timeout of [timeout] milliseconds. *)
Definition registry_ok (isUrl : string -> bool) (max timeout : Z) (m : Manager)
    : Prop :=
  JsMap.wf (sessions m)
  /\ maxSessions m = max
  /\ sessionTimeout m = timeout
  /\ (forall k s, In (k, s) (sessions m) ->
        sessionId s = k /\ validated isUrl (config s)).

End Config.

(* ================================================================== *)
(** * [SessionAwareGitLabClient] and [SessionClientManager] *)
(* ================================================================== *)

Module Client.
Import Config.

(** [a || b] on values that are a string or [undefined]. *)
Definition or (a b : option string) : option string :=
  match a with
  | Some s => if JsString.truthy s then a else b
  | None => b
  end.

(** [a || s] where [s] is a string. *)
Definition or_string (a : option string) (s : string) : string :=
  match a with
  | Some s' => if JsString.truthy s' then s' else s
  | None => s
  end.

Inductive Agent : Type :=
| HttpsProxyAgent (proxyUrl : string)
| HttpProxyAgent (proxyUrl : string).

(** A client object: [ref] is the identity of the object, the other two
    are its fields. *)
Record SessionAwareGitLabClient : Type := {
  ref : nat;
  sessionConfig : SessionConfig;
  agent : option Agent
}.

(** The process environment a client is constructed in. [urlProtocol s] is
    the [protocol] of [new URL(s)], or [None] when the constructor throws;
    the last two fields say whether [new HttpsProxyAgent(proxyUrl)] and
    [new HttpProxyAgent(proxyUrl)] return rather than throw. *)
Record Env : Type := {
  HTTP_PROXY : option string;
  HTTPS_PROXY : option string;
  urlProtocol : string -> option string;
  httpsProxyAgentAccepts : string -> bool;
  httpProxyAgentAccepts : string -> bool
}.

(** [setupProxyAgent]: the [catch] covers [new URL] and both agent
    constructors, and leaves the client without agent. *)
Definition setupProxyAgent (env : Env) (sc : SessionConfig) : option Agent :=
  match or (HTTP_PROXY env) (HTTPS_PROXY env) with
  | Some proxyUrl =>
      if JsString.truthy proxyUrl then
        match urlProtocol env (api_url (config sc)) with
        | Some protocol =>
            if String.eqb protocol "https:" then
              if httpsProxyAgentAccepts env proxyUrl
              then Some (HttpsProxyAgent proxyUrl) else None
            else
              if httpProxyAgentAccepts env proxyUrl
              then Some (HttpProxyAgent proxyUrl) else None
        | None => None
        end
      else None
  | None => None
  end.

(** Whether the agent constructor that [setupProxyAgent] picks for a
    protocol accepts the proxy. *)
Definition agent_accepts (env : Env) (protocol proxyUrl : string) : bool :=
  if String.eqb protocol "https:" then httpsProxyAgentAccepts env proxyUrl
  else httpProxyAgentAccepts env proxyUrl.

(** [new SessionAwareGitLabClient(sessionConfig)] as the object numbered [r]. *)
Definition new_client (env : Env) (r : nat) (sc : SessionConfig)
    : SessionAwareGitLabClient :=
  Build_SessionAwareGitLabClient r sc (setupProxyAgent env sc).

Definition getConfig (c : SessionAwareGitLabClient) : SessionConfig :=
  sessionConfig c.

Definition is_true (f : TrueFalse) : bool :=
  match f with LitTrue => true | LitFalse => false end.

Definition isReadOnly (c : SessionAwareGitLabClient) : bool :=
  is_true (read_only (config (sessionConfig c))).

Definition isWikiEnabled (c : SessionAwareGitLabClient) : bool :=
  is_true (use_wiki (config (sessionConfig c))).

Definition isMilestoneEnabled (c : SessionAwareGitLabClient) : bool :=
  is_true (use_milestone (config (sessionConfig c))).

Definition isPipelineEnabled (c : SessionAwareGitLabClient) : bool :=
  is_true (use_pipeline (config (sessionConfig c))).

(** [getEffectiveProjectId(requestProjectId?)]. *)
Definition getEffectiveProjectId (c : SessionAwareGitLabClient)
    (requestProjectId : option string) : string :=
  or_string (or requestProjectId (project_id (config (sessionConfig c))))
            EmptyString.

Definition validateWriteOperation (c : SessionAwareGitLabClient)
    (operation : string) : Outcome unit :=
  if isReadOnly c then
    Thrown ("Write operation '" ++ operation
            ++ "' is not allowed in read-only mode for session "
            ++ sessionId (sessionConfig c))
  else Returned tt.

(** The proxy an agent was constructed with, and its kind. *)
Definition agent_proxy (a : Agent) : string :=
  match a with
  | HttpsProxyAgent proxyUrl => proxyUrl
  | HttpProxyAgent proxyUrl => proxyUrl
  end.

Definition is_https_agent (a : Agent) : bool :=
  match a with
  | HttpsProxyAgent _ => true
  | HttpProxyAgent _ => false
  end.

(** ** [request] *)

Section Request.
(** The values passed as a body that are not strings, and parsed JSON. *)
Context {V Json : Type}.
(** [JSON.stringify] on such values: it returns a string, returns
    [undefined] (on a function or a symbol), or throws (on a cycle or a
    BigInt). *)
Variable stringify : V -> Outcome (option string).

(** [options.body]: nothing or a falsy value that is no string, a string,
    or a truthy value that is no string. *)
Inductive Body : Type :=
| BodyNone
| BodyString (s : string)
| BodyValue (v : V).

(** The parameter [options]. *)
Record Options : Type := {
  opt_method : option string;
  opt_body : Body;
  opt_headers : option (JsMap.t string)
}.

(** [{}], the default of [options]. *)
Definition no_options : Options := Build_Options None BodyNone None.

(** The local [requestOptions]. *)
Record RequestInit : Type := {
  init_method : string;
  init_headers : JsMap.t string;
  init_body : option string;
  init_agent : option Agent
}.

(** What [request] reads of a response; [text] and [json] are the outcomes
    of awaiting the two methods. *)
Record Response : Type := {
  ok : bool;
  status : Z;
  content_type : option string;
  text : Outcome string;
  json : Outcome Json
}.

(** The local [url]. *)
Definition request_url (c : SessionAwareGitLabClient) (endpoint : string) : string :=
  (JsString.drop_trailing_slash (api_url (config (sessionConfig c)))
   ++ "/" ++ JsString.drop_leading_slash endpoint)%string.

Definition default_headers (c : SessionAwareGitLabClient) : JsMap.t string :=
  [("Authorization", ("Bearer " ++ access_token (config (sessionConfig c)))%string);
   ("Content-Type", "application/json")].

(** The [body] stored in [requestOptions], before the [try]: none for a
    falsy body, the string itself, or what [JSON.stringify] gives; its
    error leaves [request] at once. *)
Definition request_body (options : Options) : Outcome (option string) :=
  match opt_body options with
  | BodyNone => Returned None
  | BodyString s => Returned (if JsString.truthy s then Some s else None)
  | BodyValue v => stringify v
  end.

(** The local [requestOptions] when [fetch] is called, [body] being what
    [request_body] returned. *)
Definition request_options (c : SessionAwareGitLabClient) (options : Options)
    (body : option string) : RequestInit :=
  Build_RequestInit
    (or_string (opt_method options) "GET")
    (match opt_headers options with
     | Some headers => JsMap.assign (default_headers c) headers
     | None => default_headers c
     end)
    body
    (agent c).

Definition map_outcome {A B : Type} (f : A -> B) (o : Outcome A) : Outcome B :=
  match o with
  | Returned a => Returned (f a)
  | Thrown message => Thrown message
  end.

(** [request]. [fetch] is the answer of the network to the call; an error
    is its message. The options are built before the [try]; its [catch]
    logs and throws the error again. *)
Definition request (fetch : string -> RequestInit -> Outcome Response)
    (c : SessionAwareGitLabClient) (endpoint : string) (options : Options)
    : Outcome (Json + string) :=
  match request_body options with
  | Thrown message => Thrown message
  | Returned body =>
      match fetch (request_url c endpoint) (request_options c options body) with
      | Thrown message => Thrown message
      | Returned response =>
          if negb (ok response) then
            match text response with
            | Returned errorText =>
                Thrown ("GitLab API error ("
                        ++ JsString.of_integer (status response)
                        ++ "): " ++ errorText)%string
            | Thrown message => Thrown message
            end
          else
            match content_type response with
            | Some contentType =>
                if JsString.truthy contentType
                   && JsString.includes "application/json" contentType
                then map_outcome inl (json response)
                else map_outcome inr (text response)
            | None => map_outcome inr (text response)
            end
      end
  end.
End Request.
Arguments Body : clear implicits.
Arguments Options : clear implicits.
Arguments Response : clear implicits.

(** [SessionClientManager]: the field [clients], and the number of client
    objects constructed so far, which names the next one. *)
Record ClientManager : Type := {
  clients : JsMap.t SessionAwareGitLabClient;
  constructed : nat
}.

Definition new_pool : ClientManager := Build_ClientManager JsMap.empty 0.

Definition getClient (env : Env) (sc : SessionConfig) (p : ClientManager)
    : SessionAwareGitLabClient * ClientManager :=
  match JsMap.get (clients p) (sessionId sc) with
  | Some client => (client, p)
  | None =>
      let client := new_client env (constructed p) sc in
      (client,
       Build_ClientManager (JsMap.set (clients p) (sessionId sc) client)
                           (S (constructed p)))
  end.

Definition removeClient (sessionId : string) (p : ClientManager)
    : bool * ClientManager :=
  (JsMap.has (clients p) sessionId,
   Build_ClientManager (JsMap.delete (clients p) sessionId) (constructed p)).

Definition getActiveClientCount (p : ClientManager) : Z := JsMap.size (clients p).

Definition clearAll (p : ClientManager) : ClientManager :=
  Build_ClientManager JsMap.empty (constructed p).

(** A call on the pool. *)
Inductive Call : Type :=
| CallGetClient (sc : SessionConfig)
| CallRemoveClient (sessionId : string)
| CallGetActiveClientCount
| CallClearAll.

Definition step (env : Env) (p : ClientManager) (c : Call) : ClientManager :=
  match c with
  | CallGetClient sc => snd (getClient env sc p)
  | CallRemoveClient sessionId => snd (removeClient sessionId p)
  | CallGetActiveClientCount => p
  | CallClearAll => clearAll p
  end.

Definition run (env : Env) (p : ClientManager) (calls : list Call) : ClientManager :=
  fold_left (step env) calls p.

(** Does the call take the client of [sessionId] out of the pool by name? *)
Definition removes (sessionId : string) (c : Call) : bool :=
  match c with
  | CallRemoveClient s => String.eqb s sessionId
  | CallClearAll => true
  | _ => false
  end.

(** What holds of a pool at all times: one entry per session id, no
    client object under two ids, every client constructed earlier and
    filed under the session id of its configuration. *)
Definition pool_ok (p : ClientManager) : Prop :=
  JsMap.wf (clients p)
  /\ NoDup (map (fun e => ref (snd e)) (clients p))
  /\ (forall k c, In (k, c) (clients p) ->
        (ref c < constructed p)%nat /\ sessionId (sessionConfig c) = k).

End Client.

(* ================================================================== *)
(** * Concrete runs *)
(* ================================================================== *)

(** Stores and registries built by a few calls, on which the embedding is
    evaluated. Messages are strings here. *)
Module Run.
Import EventStore.

Definition an_append (streamId message : string) (now : Z) (rnd : string)
    : Append string :=
  Build_Append streamId message now rnd.

(** Three appends to stream [s] and one to stream [t], at clock readings
    that ascend within [s]. *)
Definition ascending : list (Append string) :=
  [an_append "s" "m1" 5 "a"; an_append "s" "m2" 6 "b";
   an_append "t" "f1" 6 "c"; an_append "s" "m3" 7 "d"].

(** The same appends, the first three at one clock reading; the random
    suffix of the second sorts before that of the first. *)
Definition tied : list (Append string) :=
  [an_append "s" "m1" 5 "b"; an_append "s" "m2" 5 "a";
   an_append "t" "f1" 5 "c"; an_append "s" "m3" 6 "c"].

(** One append to the stream [a_b]: the id and the store. *)
Definition underscored : string * Events string :=
  storeEvent 5 "a" JsMap.empty "a_b" "m".

Import Config.

(** A stand-in for the URL parser, for evaluation: the two schemes the
    server is used with. *)
Definition isUrl (s : string) : bool :=
  String.prefix "http://" s || String.prefix "https://" s.

(** Well-formed parameters. *)
Definition query : QueryParams :=
  [("api_url", JsStringValue "https://gitlab.example/api/v4");
   ("access_token", JsStringValue "glpat");
   ("project_id", JsStringValue "42")].

(** Parameters with three offending fields. *)
Definition bad_query : QueryParams :=
  [("api_url", JsStringValue "gitlab");
   ("read_only", JsStringValue "yes");
   ("use_wiki", JsOtherValue "array")].

(** The issues zod raises on [bad_query]. *)
Definition bad_issues : list ZodIssue :=
  [Build_ZodIssue ["api_url"] "Invalid GitLab API URL";
   Build_ZodIssue ["access_token"] "Required";
   Build_ZodIssue ["read_only"]
     "Invalid enum value. Expected 'true' | 'false', received 'yes'";
   Build_ZodIssue ["use_wiki"] "Expected 'true' | 'false', received array"].

Definition a_config (project : option string) : DynamicConfig :=
  Build_DynamicConfig "https://gitlab.example/api/v4" "glpat" project
                      LitFalse LitFalse LitFalse LitFalse.

Definition a_session (sessionId : string) (used : Z) : string * SessionConfig :=
  (sessionId, Build_SessionConfig sessionId (a_config (Some "42")) 0 used).

(** A registry of capacity five that holds five sessions. *)
Definition five : Manager :=
  Build_Manager
    [a_session "s0" 50; a_session "s1" 20; a_session "s2" 40;
     a_session "s3" 10; a_session "s4" 30]
    5 3600000.

(** A registry of capacity twenty that holds twenty sessions. *)
Definition twenty : Manager :=
  Build_Manager
    [a_session "a0" 500; a_session "a1" 200; a_session "a2" 400;
     a_session "a3" 100; a_session "a4" 300; a_session "a5" 550;
     a_session "a6" 250; a_session "a7" 450; a_session "a8" 150;
     a_session "a9" 350; a_session "b0" 510; a_session "b1" 210;
     a_session "b2" 410; a_session "b3" 110; a_session "b4" 310;
     a_session "b5" 560; a_session "b6" 260; a_session "b7" 460;
     a_session "b8" 160; a_session "b9" 360]
    20 3600000.

(** A new registry with the default limits. *)
Definition fresh : Manager := new_manager 1000 60.

Import Client.

(** An environment without proxy. *)
Definition env : Env :=
  Build_Env None None (fun _ => Some "https:") isUrl isUrl.

(** An environment whose proxy variable holds no URL, which the agent
    constructors refuse. *)
Definition env_bad_proxy : Env :=
  Build_Env (Some "not a url") None (fun _ => Some "https:") isUrl isUrl.

(** An environment with both proxy variables set. *)
Definition env_proxies : Env :=
  Build_Env (Some "http://proxy.example:3128") (Some "http://other.example:8080")
            (fun _ => Some "https:") isUrl isUrl.

(** Two records of the session [s0]: the second was recreated with another
    default project and a later time. *)
Definition first_record : SessionConfig :=
  Build_SessionConfig "s0" (a_config (Some "42")) 0 50.

Definition second_record : SessionConfig :=
  Build_SessionConfig "s0" (a_config (Some "7")) 60 60.

Definition other_record : SessionConfig :=
  Build_SessionConfig "s1" (a_config None) 10 20.

(** A client of the first record. *)
Definition a_client : SessionAwareGitLabClient := new_client env 0 first_record.

(** The same client had the configured URL ended in a slash. *)
Definition a_client_slash : SessionAwareGitLabClient :=
  new_client env 0
    (Build_SessionConfig "s0"
       (Build_DynamicConfig "https://gitlab.example/api/v4/" "glpat" (Some "42")
                            LitFalse LitFalse LitFalse LitFalse)
       0 50).

(** Headers a caller passes: another content type and a header of its own. *)
Definition caller_headers : JsMap.t string :=
  [("Content-Type", "text/plain"); ("X-Trace", "1")].

End Run.

(* ================================================================== *)
(** * Lists *)
(* ================================================================== *)

Module ListFacts.

Lemma map_injective_on {A B : Type} (g : A -> B) (l : list A) x y :
  NoDup (map g l) -> In x l -> In y l -> g x = g y -> x = y.
Proof.
  induction l as [|a l IH]; simpl; [tauto|].
  intros Hnd Hx Hy Hg. inversion Hnd as [|? ? Hnotin Hnd']; subst.
  destruct Hx as [<-|Hx], Hy as [<-|Hy]; auto.
  - exfalso. apply Hnotin. rewrite Hg. now apply in_map.
  - exfalso. apply Hnotin. rewrite <- Hg. now apply in_map.
Qed.


Lemma filter_none {A : Type} (f : A -> bool) (l : list A) :
  (forall a, In a l -> f a = false) -> filter f l = [].
Proof.
  intros H. rewrite (filter_ext_in f (fun _ => false) l H). apply filter_false.
Qed.

Lemma filter_all {A : Type} (f : A -> bool) (l : list A) :
  (forall a, In a l -> f a = true) -> filter f l = l.
Proof.
  intros H. rewrite (filter_ext_in f (fun _ => true) l H). apply filter_true.
Qed.

Lemma NoDup_app_disjoint {A : Type} (l1 l2 : list A) a :
  NoDup (l1 ++ l2) -> In a l1 -> ~ In a l2.
Proof.
  induction l1 as [|x l1 IH]; simpl; [tauto|].
  intros Hnd [<-|Hin] Hin2.
  - inversion Hnd as [|? ? Hnotin _]; subst. apply Hnotin.
    apply in_or_app. now right.
  - inversion Hnd; subst. now apply IH.
Qed.



Lemma filter_perm {A : Type} (p : A -> bool) (l l' : list A) :
  Permutation l l' -> Permutation (filter p l) (filter p l').
Proof.
  induction 1 as [|x l l' Hp IH|x y l|l l' l'' H1 IH1 H2 IH2]; simpl.
  - constructor.
  - destruct (p x); [now constructor|exact IH].
  - destruct (p x), (p y); try reflexivity. apply perm_swap.
  - now transitivity (filter p l').
Qed.

End ListFacts.

(* ================================================================== *)
(** * Facts about [JsMap] *)
(* ================================================================== *)

Module JsMapFacts.
Import JsMap ListFacts.

Section Facts.
Context {V : Type}.
Implicit Types (m : JsMap.t V) (k : string) (v : V).

Lemma get_set_same m k v : get (set m k v) k = Some v.
Proof.
  induction m as [|[k' v'] m IH]; simpl.
  - now rewrite String.eqb_refl.
  - destruct (String.eqb k' k) eqn:E; simpl.
    + now rewrite String.eqb_refl.
    + now rewrite E.
Qed.

Lemma get_set_other m k k' v : k <> k' -> get (set m k v) k' = get m k'.
Proof.
  intros Hne. induction m as [|[k0 v0] m IH]; simpl.
  - apply String.eqb_neq in Hne. now rewrite Hne.
  - destruct (String.eqb k0 k) eqn:E; simpl.
    + apply String.eqb_eq in E. subst k0.
      apply String.eqb_neq in Hne. now rewrite Hne.
    + now rewrite IH.
Qed.

Lemma get_delete_same m k : get (delete m k) k = None.
Proof.
  induction m as [|[k' v'] m IH]; simpl; [reflexivity|].
  destruct (String.eqb k' k) eqn:E; simpl; [exact IH|].
  now rewrite E.
Qed.

Lemma get_delete_other m k k' : k <> k' -> get (delete m k) k' = get m k'.
Proof.
  intros Hne. induction m as [|[k0 v0] m IH]; simpl; [reflexivity|].
  destruct (String.eqb k0 k) eqn:E; simpl.
  - apply String.eqb_eq in E. subst k0.
    apply String.eqb_neq in Hne. now rewrite Hne.
  - now rewrite IH.
Qed.

Lemma get_Some_In m k v : get m k = Some v -> In (k, v) m.
Proof.
  induction m as [|[k' v'] m IH]; simpl; [discriminate|].
  destruct (String.eqb k' k) eqn:E.
  - apply String.eqb_eq in E. intros [= ->]. subst. now left.
  - intros H. right. now apply IH.
Qed.

Lemma get_None_iff m k : get m k = None <-> ~ In k (keys m).
Proof.
  induction m as [|[k' v'] m IH]; simpl.
  - tauto.
  - destruct (String.eqb k' k) eqn:E.
    + apply String.eqb_eq in E. split; [discriminate|]. intros H. exfalso. auto.
    + apply String.eqb_neq in E. rewrite IH. tauto.
Qed.

Lemma has_true_iff m k : has m k = true <-> In k (keys m).
Proof.
  unfold has. destruct (get m k) eqn:E.
  - split; [intros _|reflexivity].
    apply get_Some_In in E. apply (in_map fst) in E. exact E.
  - split; [discriminate|]. intros H. now apply get_None_iff in E.
Qed.

Lemma has_false_iff m k : has m k = false <-> ~ In k (keys m).
Proof.
  rewrite <- has_true_iff. destruct (has m k); split; congruence.
Qed.

Lemma get_In m k v : wf m -> In (k, v) m -> get m k = Some v.
Proof.
  unfold wf. induction m as [|[k' v'] m IH]; simpl; [tauto|].
  intros Hnd [Heq|Hin].
  - injection Heq as -> ->. now rewrite String.eqb_refl.
  - inversion Hnd as [|? ? Hnotin Hnd']; subst.
    destruct (String.eqb k' k) eqn:E.
    + apply String.eqb_eq in E. subst k'. exfalso. apply Hnotin.
      apply (in_map fst) in Hin. exact Hin.
    + now apply IH.
Qed.

Lemma set_new m k v : get m k = None -> set m k v = m ++ [(k, v)].
Proof.
  induction m as [|[k' v'] m IH]; simpl; [reflexivity|].
  destruct (String.eqb k' k); [discriminate|].
  intros H. now rewrite IH.
Qed.

Lemma keys_set_present m k v : In k (keys m) -> keys (set m k v) = keys m.
Proof.
  induction m as [|[k' v'] m IH]; simpl; [tauto|].
  destruct (String.eqb k' k) eqn:E; simpl.
  - apply String.eqb_eq in E. now subst.
  - apply String.eqb_neq in E. intros [H|H]; [contradiction|]. now rewrite IH.
Qed.

Lemma wf_empty : wf (@empty V).
Proof. constructor. Qed.

Lemma wf_set m k v : wf m -> wf (set m k v).
Proof.
  unfold wf. intros Hwf. destruct (has m k) eqn:E.
  - apply has_true_iff in E. now rewrite keys_set_present.
  - pose proof E as E'. apply has_false_iff in E.
    rewrite set_new by now apply get_None_iff.
    unfold keys. rewrite map_app. simpl.
    apply NoDup_app; [exact Hwf|repeat constructor; simpl; tauto|].
    intros x Hx [Hk|[]]. subst. auto.
Qed.

Lemma wf_filter m (p : string * V -> bool) : wf m -> wf (filter p m).
Proof.
  unfold wf, keys. induction m as [|e m IH]; simpl; [auto|].
  intros Hnd. inversion Hnd as [|? ? Hnotin Hnd']; subst.
  destruct (p e); simpl; [|auto].
  constructor; [|auto].
  intros Hin. apply Hnotin. apply in_map_iff in Hin as [e' [He Hin]].
  apply filter_In in Hin as [Hin _]. rewrite <- He. now apply in_map.
Qed.

Lemma wf_delete m k : wf m -> wf (delete m k).
Proof. apply wf_filter. Qed.

Lemma delete_all_filter m ks :
  delete_all m ks = filter (fun e => negb (existsb (String.eqb (fst e)) ks)) m.
Proof.
  unfold delete_all. revert m. induction ks as [|k ks IH]; intros m; simpl.
  - induction m as [|e m IHm]; simpl; [reflexivity|]. now rewrite <- IHm.
  - rewrite IH. unfold delete.
    induction m as [|e m IHm]; simpl; [reflexivity|].
    destruct (String.eqb (fst e) k); simpl; [exact IHm|].
    destruct (existsb (String.eqb (fst e)) ks); simpl; [exact IHm|].
    now rewrite IHm.
Qed.

Lemma wf_delete_all m ks : wf m -> wf (delete_all m ks).
Proof. rewrite delete_all_filter. apply wf_filter. Qed.

Lemma existsb_eqb_In (k : string) (ks : list string) :
  existsb (String.eqb k) ks = true <-> In k ks.
Proof.
  rewrite existsb_exists. split.
  - intros [x [Hin E]]. apply String.eqb_eq in E. now subst.
  - intros Hin. exists k. split; [exact Hin|apply String.eqb_refl].
Qed.

Lemma get_filter_keep m (p : string * V -> bool) k :
  (forall v, p (k, v) = true) -> get (filter p m) k = get m k.
Proof.
  intros Hp. induction m as [|[k' v'] m IH]; simpl; [reflexivity|].
  destruct (p (k', v')) eqn:Ep; simpl.
  - destruct (String.eqb k' k); [reflexivity|exact IH].
  - destruct (String.eqb k' k) eqn:E; [|exact IH].
    apply String.eqb_eq in E. subst. now rewrite Hp in Ep.
Qed.




Lemma get_filter m (p : string * V -> bool) k :
  wf m ->
  get (filter p m) k
  = match get m k with
    | Some v => if p (k, v) then Some v else None
    | None => None
    end.
Proof.
  unfold wf. induction m as [|[k' v'] m IH]; simpl; [reflexivity|].
  intros Hnd. inversion Hnd as [|? ? Hnotin Hnd']; subst.
  destruct (String.eqb k' k) eqn:E.
  - apply String.eqb_eq in E. subst k'.
    destruct (p (k, v')); simpl; [now rewrite String.eqb_refl|].
    apply get_None_iff. intros Hin. apply Hnotin.
    apply in_map_iff in Hin as [e [He Hin]]. apply filter_In in Hin as [Hin _].
    rewrite <- He. now apply in_map.
  - destruct (p (k', v')); simpl; [rewrite E|]; now apply IH.
Qed.

Lemma In_set m k v (e : string * V) :
  In e (set m k v) -> e = (k, v) \/ In e m.
Proof.
  induction m as [|[k' v'] m IH]; simpl.
  - intros [<-|[]]. now left.
  - destruct (String.eqb k' k); simpl.
    + intros [<-|H]; [now left|right; now right].
    + intros [<-|H]; [right; now left|].
      destruct (IH H) as [->|H']; [now left|right; now right].
Qed.

Lemma wf_same_key m (e e' : string * V) :
  wf m -> In e m -> In e' m -> fst e = fst e' -> e = e'.
Proof. intros Hwf. now apply map_injective_on. Qed.

Lemma length_delete_present m k v :
  wf m -> get m k = Some v ->
  S (List.length (delete m k)) = List.length m.
Proof.
  unfold wf. induction m as [|[k' v'] m IH]; simpl; [discriminate|].
  intros Hnd Hget. inversion Hnd as [|? ? Hnotin Hnd']; subst.
  destruct (String.eqb k' k) eqn:E; simpl.
  - apply String.eqb_eq in E. subst k'. f_equal.
    fold (delete m k). f_equal. apply filter_all.
    intros [k1 v1] Hin. simpl. apply negb_true_iff, String.eqb_neq.
    intros ->. apply Hnotin. now apply (in_map fst) in Hin.
  - f_equal. now apply IH.
Qed.

Lemma length_set_present m k v :
  In k (keys m) -> List.length (set m k v) = List.length m.
Proof.
  induction m as [|[k' v'] m IH]; simpl; [tauto|].
  destruct (String.eqb k' k) eqn:E; simpl; [reflexivity|].
  apply String.eqb_neq in E. intros [H|H]; [contradiction|]. now rewrite IH.
Qed.

(** Deleting the keys of the entries a test selects keeps the others. *)
Lemma delete_all_selected m (p : string * V -> bool) :
  wf m ->
  delete_all m (map fst (filter p m)) = filter (fun e => negb (p e)) m.
Proof.
  intros Hwf. rewrite delete_all_filter. apply filter_ext_in.
  intros e He. f_equal. destruct (p e) eqn:Ep.
  - apply existsb_eqb_In. apply in_map. apply filter_In. now split.
  - destruct (existsb _ _) eqn:Ex; [|reflexivity].
    apply existsb_eqb_In in Ex. apply in_map_iff in Ex as [e' [Hk Hin]].
    apply filter_In in Hin as [Hin Hp].
    assert (e' = e) by (eapply wf_same_key; eauto).
    subst. congruence.
Qed.

(** Deleting the keys of a prefix of a rearrangement leaves the rest of
    the rearrangement. *)
Lemma delete_all_prefix m (l : list (string * V)) n :
  wf m -> Permutation m l ->
  Permutation (delete_all m (map fst (firstn n l))) (skipn n l).
Proof.
  intros Hwf Hp. rewrite delete_all_filter.
  set (p := fun e : string * V =>
              negb (existsb (String.eqb (fst e)) (map fst (firstn n l)))).
  assert (Hnd : NoDup (map fst (firstn n l) ++ map fst (skipn n l))).
  { rewrite <- map_app, firstn_skipn.
    eapply Permutation_NoDup; [|exact Hwf]. now apply Permutation_map. }
  transitivity (filter p l); [now apply filter_perm|].
  rewrite <- (firstn_skipn n l) at 1. rewrite filter_app.
    rewrite filter_none, filter_all; [reflexivity| |].
  - intros e He. unfold p. apply negb_true_iff.
    destruct (existsb _ _) eqn:Ex; [|reflexivity].
    apply existsb_eqb_In in Ex. exfalso.
    eapply NoDup_app_disjoint; [exact Hnd|exact Ex|].
    now apply in_map.
  - intros e He. unfold p. apply negb_false_iff.
    apply existsb_eqb_In. now apply in_map.
Qed.

End Facts.
End JsMapFacts.

(* ================================================================== *)
(** * Facts about [sort] and [slice] *)
(* ================================================================== *)

Module JsArrayFacts.
Import JsArray ListFacts.

Section Facts.
Context {A : Type}.
Variable cmp : A -> A -> Z.

Lemma insert_perm x l : Permutation (insert cmp x l) (x :: l).
Proof.
  induction l as [|y l IH]; simpl; [reflexivity|].
  destruct (cmp x y <=? 0)%Z; [reflexivity|].
  rewrite IH. apply perm_swap.
Qed.

Lemma sort_perm l : Permutation (sort cmp l) l.
Proof.
  induction l as [|x l IH]; simpl; [reflexivity|].
  rewrite insert_perm. now constructor.
Qed.

Lemma sort_In x l : In x (sort cmp l) <-> In x l.
Proof.
  split; apply Permutation_in; [|symmetry]; apply sort_perm.
Qed.

Lemma sort_length l : List.length (sort cmp l) = List.length l.
Proof. apply Permutation_length, sort_perm. Qed.

Hypothesis Hcmp : consistent cmp.

Lemma le_total a b : le cmp a b \/ le cmp b a.
Proof.
  unfold le. destruct (Z_lt_le_dec 0 (cmp a b)) as [H|H]; [|now left].
  right. apply (cmp_flip_gt _ Hcmp) in H. lia.
Qed.

Lemma insert_sorted x l :
  StronglySorted (le cmp) l -> StronglySorted (le cmp) (insert cmp x l).
Proof.
  induction 1 as [|y l Hs IH Hall]; simpl.
  - repeat constructor.
  - destruct (Z.leb_spec (cmp x y) 0) as [Hle|Hgt].
    + constructor; [now constructor|].
      constructor; [exact Hle|].
      eapply Forall_impl; [|exact Hall].
      intros z Hz. eapply (cmp_trans _ Hcmp); eassumption.
    + constructor; [exact IH|].
      assert (Hyx : le cmp y x).
      { destruct (le_total y x) as [H|H]; [exact H|unfold le in H; lia]. }
      rewrite Forall_forall. intros z Hz.
      apply (Permutation_in _ (insert_perm x l)) in Hz.
      destruct Hz as [<-|Hz]; [exact Hyx|].
      rewrite Forall_forall in Hall. now apply Hall.
Qed.

Lemma sort_sorted l : StronglySorted (le cmp) (sort cmp l).
Proof.
  induction l as [|x l IH]; simpl; [constructor|now apply insert_sorted].
Qed.

End Facts.

Section Order.
Context {A : Type}.
Variable R : A -> A -> Prop.

Lemma sorted_filter (p : A -> bool) l :
  StronglySorted R l -> StronglySorted R (filter p l).
Proof.
  induction 1 as [|x l Hs IH Hall]; simpl; [constructor|].
  destruct (p x); [|exact IH].
  constructor; [exact IH|].
  rewrite Forall_forall in *. intros y Hy.
  apply filter_In in Hy as [Hy _]. now apply Hall.
Qed.


(** A list sorted for [R] that is a rearrangement of a list sorted for a
    relation excluding the converse of [R] is that list. *)
Lemma sorted_perm_unique (l l' : list A) :
  StronglySorted R l ->
  StronglySorted (fun x y => ~ R y x) l' ->
  Permutation l l' -> l = l'.
Proof.
  intros Hl Hl'. revert l Hl.
  induction Hl' as [|x' r' Hs' IH Hall']; intros l Hl Hp.
  - apply Permutation_sym in Hp. now apply Permutation_nil in Hp.
  - destruct l as [|x r]; [apply Permutation_nil in Hp; discriminate|].
    inversion Hl as [|? ? Hs Hall]; subst.
    assert (Hx : x = x').
    { assert (Hin : In x (x' :: r')) by (eapply Permutation_in; [exact Hp|now left]).
      destruct Hin as [Heq|Hin]; [now symmetry|].
      assert (Hin' : In x' (x :: r)) by
        (eapply Permutation_in; [symmetry; exact Hp|now left]).
      destruct Hin' as [Heq|Hin']; [exact Heq|].
      rewrite Forall_forall in Hall, Hall'.
      exfalso. apply (Hall' x Hin). now apply Hall. }
    subst x'. f_equal. apply IH; [exact Hs|].
    eapply Permutation_cons_inv; exact Hp.
Qed.

End Order.

Lemma slice0_firstn {A : Type} (l : list A) (n : Z) :
  (0 <= n <= Z.of_nat (List.length l))%Z ->
  slice0 l n = firstn (Z.to_nat n) l.
Proof.
  intros H. unfold slice0.
  destruct (Z.ltb_spec n 0); [lia|]. now rewrite Z.min_l by lia.
Qed.

End JsArrayFacts.

(* ================================================================== *)
(** * The event store *)
(* ================================================================== *)

Module EventStoreFacts.
Import EventStore.

Lemma codeUnitCompare_consistent : JsArray.consistent codeUnitCompare.
Proof.
  unfold codeUnitCompare. constructor.
  - intros a b. rewrite (String.compare_antisym b a).
    destruct (String.compare a b); simpl; lia.
  - intros a b. rewrite (String.compare_antisym b a).
    destruct (String.compare a b); simpl; lia.
  - unfold JsArray.le. intros a b c.
    destruct (String.compare a b) eqn:Eab; try lia;
      destruct (String.compare b c) eqn:Ebc; try lia; intros _ _.
    + apply String_as_OT.cmp_eq in Eab, Ebc. subst.
      replace (String.compare c c) with Eq; [lia|].
      symmetry. now apply String_as_OT.cmp_eq.
    + apply String_as_OT.cmp_eq in Eab. subst. rewrite Ebc. lia.
    + apply String_as_OT.cmp_eq in Ebc. subst. rewrite Eab. lia.
    + apply String_as_OT.cmp_lt in Eab, Ebc.
      pose proof (String_as_OT.lt_trans _ _ _ Eab Ebc) as H.
      apply String_as_OT.cmp_lt in H. unfold String_as_OT.cmp in H.
      rewrite H. lia.
Qed.

Section Facts.
Context {Message : Type}.

Lemma split_prefix (s rest : string) :
  JsString.mem "_" s = false ->
  JsString.split "_" (s ++ String "_" rest) = s :: JsString.split "_" rest.
Proof.
  induction s as [|c s IH]; simpl; [reflexivity|].
  intros H. apply orb_false_elim in H as [Hc Hs].
  rewrite Hc, (IH Hs). reflexivity.
Qed.

(** The prefix parsed from a generated id is the stream id when the stream
    id holds no underscore. *)
Lemma getStreamId_generate now rnd (streamId : string) :
  JsString.mem "_" streamId = false ->
  getStreamIdFromEventId (generateEventId now rnd streamId) = streamId.
Proof.
  intros H. unfold getStreamIdFromEventId, generateEventId. simpl.
  now rewrite split_prefix.
Qed.

Lemma generate_truthy now rnd (streamId : string) :
  JsString.truthy (generateEventId now rnd streamId) = true.
Proof.
  unfold generateEventId. destruct streamId; reflexivity.
Qed.

Lemma fold_append (ops : list (Append Message)) (m : Events Message) :
  NoDup (JsMap.keys m ++ map append_id ops) ->
  fold_left append ops m = m ++ map entry_of ops.
Proof.
  revert m. induction ops as [|a ops IH]; intros m Hnd; simpl.
  - now rewrite app_nil_r.
  - assert (Hnew : JsMap.get m (append_id a) = None).
    { apply JsMapFacts.get_None_iff. intros Hin.
      apply NoDup_remove_2 in Hnd. apply Hnd.
      apply in_or_app. now left. }
    unfold append at 2, storeEvent. simpl.
    fold (append_id a). rewrite (JsMapFacts.set_new _ _ _ Hnew).
    rewrite IH.
    + rewrite <- app_assoc. reflexivity.
    + unfold JsMap.keys in *. rewrite map_app. simpl.
      rewrite <- app_assoc. simpl.
      eapply Permutation_NoDup; [|exact Hnd].
      apply Permutation_app_head. reflexivity.
Qed.

Lemma appended_entries (ops : list (Append Message)) :
  NoDup (map append_id ops) -> appended ops = map entry_of ops.
Proof.
  intros H. unfold appended. now rewrite fold_append.
Qed.

Lemma filter_entries (streamId : string) (ops : list (Append Message)) :
  filter (stored_in streamId) (map entry_of ops)
  = map entry_of (filter (appends_to streamId) ops).
Proof.
  induction ops as [|a ops IH]; simpl; [reflexivity|].
  unfold appends_to at 1. destruct (String.eqb (app_stream a) streamId);
    simpl; now rewrite IH.
Qed.

Lemma reachable_wf (events : Events Message) :
  reachable events -> JsMap.wf events.
Proof.
  induction 1 as [|now rnd events sid msg _ IH|events sid _ IH].
  - apply JsMapFacts.wf_empty.
  - now apply JsMapFacts.wf_set.
  - now apply JsMapFacts.wf_delete_all.
Qed.

Lemma reachable_plain_wf (events : Events Message) :
  reachable_plain events -> JsMap.wf events.
Proof.
  induction 1 as [|now rnd events sid msg _ IH _|events sid _ IH].
  - apply JsMapFacts.wf_empty.
  - now apply JsMapFacts.wf_set.
  - now apply JsMapFacts.wf_delete_all.
Qed.

Lemma reachable_plain_keyed (events : Events Message) :
  reachable_plain events -> prefix_keyed events.
Proof.
  induction 1 as [|now rnd events sid msg _ IH Hsid|events sid _ IH];
    intros k ev Hin.
  - destruct Hin.
  - simpl in Hin. apply JsMapFacts.In_set in Hin as [E|Hin]; [|now apply IH].
    injection E as -> ->. simpl. split.
    + now apply getStreamId_generate.
    + apply generate_truthy.
  - unfold clearStream in Hin. rewrite JsMapFacts.delete_all_filter in Hin.
    apply filter_In in Hin as [Hin _]. now apply IH.
Qed.

(** What [clearStream] leaves: the entries whose id does not parse to the
    stream id. *)
Lemma clearStream_filter (events : Events Message) (sid : string) :
  clearStream events sid
  = filter (fun e => negb (String.eqb (getStreamIdFromEventId (fst e)) sid))
           events.
Proof.
  unfold clearStream. rewrite JsMapFacts.delete_all_filter.
  apply filter_ext_in. intros [k ev] Hin. simpl. f_equal.
  destruct (String.eqb (getStreamIdFromEventId k) sid) eqn:E.
  - apply JsMapFacts.existsb_eqb_In. apply filter_In. split; [|exact E].
    now apply (in_map fst) in Hin.
  - destruct (existsb _ _) eqn:Ex; [|reflexivity].
    apply JsMapFacts.existsb_eqb_In in Ex. apply filter_In in Ex as [_ Ex].
    congruence.
Qed.

Section Replay.
Variable localeCompare : string -> string -> Z.
Context {W : Type}.
Variable send : string -> Message -> Async.t W unit.

(** The loop passes over the entries of other streams. *)
Lemma replay_loop_filter (streamId lastEventId : string) l found w :
  replay_loop send streamId lastEventId l found w
  = replay_loop send streamId lastEventId
      (filter (stored_in streamId) l) found w.
Proof.
  revert found w. induction l as [|[eventId [s msg]] l IH]; intros found w;
    simpl; [reflexivity|].
  destruct (String.eqb s streamId) eqn:Es; simpl; [|apply IH].
  rewrite Es. simpl.
  destruct (String.eqb eventId lastEventId); [apply IH|].
  destruct found; [|apply IH].
  unfold Async.bind. destruct (send eventId msg w) as [[[]|] w']; [apply IH|reflexivity].
Qed.

(** With the recording consumer the loop always resolves. *)
Lemma replay_loop_record_resolves (streamId lastEventId : string)
    (l : list (string * StoredEvent Message)) found calls :
  fst (replay_loop Async.record streamId lastEventId l found calls) = Some tt.
Proof.
  revert found calls.
  induction l as [|[eventId [s msg]] l IH]; intros found calls; simpl;
    [reflexivity|].
  destruct (String.eqb s streamId); simpl; [|apply IH].
  destruct (String.eqb eventId lastEventId); [apply IH|].
  destruct found; [|apply IH].
  unfold Async.bind, Async.record. apply IH.
Qed.

Lemma compareEntries_consistent :
  JsArray.consistent localeCompare ->
  JsArray.consistent (@compareEntries Message localeCompare).
Proof.
  intros [H1 H2 H3]. unfold compareEntries, JsArray.le in *.
  constructor; unfold JsArray.le; intros; eauto.
Qed.

(** The entries of one stream, once sorted, when that stream received
    three appends whose ids ascend. *)
Lemma sorted_stream_entries (ops : list (Append Message)) a1 a2 a3 (S : string) :
  JsArray.consistent localeCompare ->
  NoDup (map append_id ops) ->
  filter (appends_to S) ops = [a1; a2; a3] ->
  (localeCompare (append_id a1) (append_id a2) < 0)%Z ->
  (localeCompare (append_id a2) (append_id a3) < 0)%Z ->
  filter (stored_in S)
         (JsArray.sort (compareEntries localeCompare)
                       (JsMap.entries (appended ops)))
  = [entry_of a1; entry_of a2; entry_of a3].
Proof.
  intros Hc Hnd Hf H12 H23.
  pose proof (compareEntries_consistent Hc) as Hce.
  apply (JsArrayFacts.sorted_perm_unique (JsArray.le (compareEntries localeCompare))).
  - apply JsArrayFacts.sorted_filter. now apply JsArrayFacts.sort_sorted.
  - pose proof (JsArray.cmp_flip_lt _ Hc _ _ H12) as G12.
    pose proof (JsArray.cmp_flip_lt _ Hc _ _ H23) as G23.
    assert (G13 : ~ (localeCompare (append_id a3) (append_id a1) <= 0)%Z).
    { intros H31.
      assert (H32 : (localeCompare (append_id a3) (append_id a2) <= 0)%Z).
      { apply (JsArray.cmp_trans _ Hc _ (append_id a1)); unfold JsArray.le; lia. }
      lia. }
    unfold JsArray.le, compareEntries, entry_of. simpl.
    repeat constructor; simpl; lia.
  - unfold JsMap.entries. rewrite (appended_entries _ Hnd).
    rewrite (ListFacts.filter_perm _ _ _ (JsArrayFacts.sort_perm _ _)).
    now rewrite filter_entries, Hf.
Qed.

End Replay.
End Facts.
End EventStoreFacts.

(* ================================================================== *)
(** * EventLog: replay and clearing *)
(* ================================================================== *)

Module EventLogSpec.
Import EventStore EventStoreFacts Async.Notations.

Local Ltac distinct_strings :=
  repeat constructor; simpl; intuition discriminate.

(** X26. Let [S] be a non-empty stream id without underscore and let a new
    store receive any sequence of appends, to [S] and to other streams,
    whose generated ids are pairwise distinct. If the appends to [S] are
    [a1], [a2], [a3] in that order and their generated ids happen to ascend
    under [localeCompare], then [replayEventsAfter] from the id of [a1] calls
    [send] with the second event, awaits it, calls [send] with the third,
    and resolves with [S]; recorded, the calls are exactly these two, and
    the id of no append to another stream is among them. *)
Theorem replay_after_first_sends_rest
    {Message W : Type} (localeCompare : string -> string -> Z)
    (send : string -> Message -> Async.t W unit)
    (ops : list (Append Message)) (a1 a2 a3 : Append Message) (S : string) :
  JsArray.consistent localeCompare ->
  JsString.truthy S = true ->
  JsString.mem "_" S = false ->
  NoDup (map append_id ops) ->
  filter (appends_to S) ops = [a1; a2; a3] ->
  (localeCompare (append_id a1) (append_id a2) < 0)%Z ->
  (localeCompare (append_id a2) (append_id a3) < 0)%Z ->
  (forall w,
     replayEventsAfter localeCompare send (appended ops) (append_id a1) w
     = (send (append_id a2) (app_message a2) ;;;
        send (append_id a3) (app_message a3) ;;;
        Async.ret S) w)
  /\ replay_calls localeCompare (appended ops) (append_id a1)
     = (Some S, [(append_id a2, app_message a2); (append_id a3, app_message a3)])
  /\ (forall f, In f ops -> app_stream f <> S ->
        ~ In (append_id f) [append_id a2; append_id a3]).
Proof.
  intros Hc HS Hmem Hnd Hf H12 H23.
  assert (Hin : forall a, In a [a1; a2; a3] -> In a ops /\ app_stream a = S).
  { intros a Ha. rewrite <- Hf in Ha. apply filter_In in Ha as [Ha Hs].
    split; [exact Ha|]. now apply String.eqb_eq in Hs. }
  destruct (Hin a1) as [Hin1 Hs1]; [simpl; auto|].
  destruct (Hin a2) as [Hin2 Hs2]; [simpl; auto|].
  destruct (Hin a3) as [Hin3 Hs3]; [simpl; auto|].
  assert (Hirr : forall x, ~ (localeCompare x x < 0)%Z).
  { intros x Hx. pose proof (JsArray.cmp_flip_lt _ Hc _ _ Hx). lia. }
  assert (N21 : String.eqb (append_id a2) (append_id a1) = false).
  { apply String.eqb_neq. intros E. rewrite E in H12. exact (Hirr _ H12). }
  assert (N31 : String.eqb (append_id a3) (append_id a1) = false).
  { apply String.eqb_neq. intros E. rewrite E in H23.
    pose proof (JsArray.cmp_flip_lt _ Hc _ _ H12). lia. }
  assert (Hgen : forall (X : Type) (snd_ : string -> Message -> Async.t X unit) w,
     replayEventsAfter localeCompare snd_ (appended ops) (append_id a1) w
     = (snd_ (append_id a2) (app_message a2) ;;;
        snd_ (append_id a3) (app_message a3) ;;;
        Async.ret S) w).
  { intros X snd_ w.
    assert (Ht : JsString.truthy (append_id a1) = true)
      by apply generate_truthy.
    assert (Hg : getStreamIdFromEventId (append_id a1) = S).
    { unfold append_id. rewrite Hs1. now apply getStreamId_generate. }
    assert (Hhas : JsMap.has (appended ops) (append_id a1) = true).
    { apply JsMapFacts.has_true_iff. rewrite (appended_entries _ Hnd).
      unfold JsMap.keys. rewrite map_map. simpl.
      now apply (in_map append_id). }
    pose proof (sorted_stream_entries localeCompare ops a1 a2 a3 S
                  Hc Hnd Hf H12 H23) as Hsorted.
    unfold entry_of in Hsorted. rewrite Hs1, Hs2, Hs3 in Hsorted.
    unfold replayEventsAfter. rewrite Ht, Hhas, Hg, HS.
    cbn [negb orb].
    unfold Async.bind at 1. rewrite replay_loop_filter, Hsorted.
    cbn [replay_loop]. rewrite !String.eqb_refl, N21, N31.
    cbn [negb]. unfold Async.bind, Async.ret.
    destruct (snd_ (append_id a2) (app_message a2) w) as [[[]|] w1];
      [|reflexivity].
    destruct (snd_ (append_id a3) (app_message a3) w1) as [[[]|] w2];
      reflexivity. }
  split; [apply Hgen|]. split.
  - unfold replay_calls. rewrite Hgen. reflexivity.
  - intros f Hfin Hfs Hid.
    destruct Hid as [E|[E|[]]]; apply Hfs.
    + rewrite <- Hs2. f_equal.
      symmetry. eapply (ListFacts.map_injective_on append_id); eauto.
    + rewrite <- Hs3. f_equal.
      symmetry. eapply (ListFacts.map_injective_on append_id); eauto.
Qed.

(** X26 on the run [Run.ascending]: after [s_5_a] the store replays
    [s_6_b] and [s_7_d], and not the event of stream [t]. *)
Lemma replay_after_first_sends_rest_witness :
  replay_calls codeUnitCompare (appended Run.ascending) "s_5_a"
  = (Some "s", [("s_6_b", "m2"); ("s_7_d", "m3")]).
Proof.
  refine (proj1 (proj2
    (@replay_after_first_sends_rest string (list (string * string))
       codeUnitCompare Async.record Run.ascending
       (Run.an_append "s" "m1" 5 "a") (Run.an_append "s" "m2" 6 "b")
       (Run.an_append "s" "m3" 7 "d") "s" _ _ _ _ _ _ _))).
  - exact codeUnitCompare_consistent.
  - reflexivity.
  - reflexivity.
  - distinct_strings.
  - reflexivity.
  - vm_compute. reflexivity.
  - vm_compute. reflexivity.
Defined.

(** C1 at three appends within two milliseconds. In the run [Run.tied]
    the streams [s] and [t] differ and [s] receives [m1], [m2], [m3] in
    that order, under the ids [s_5_b], [s_5_a], [s_6_c]; the second event
    is stored, in stream [s], after the first. The replay after the first
    sends the third only: the second, appended in the same millisecond,
    sorts before the first and is never sent. *)
Lemma replay_in_append_order_fails :
  "s" <> "t"
  /\ map append_id Run.tied = ["s_5_b"; "s_5_a"; "t_5_c"; "s_6_c"]
  /\ map (fun e => (fst e, streamId (snd e))) (appended Run.tied)
     = [("s_5_b", "s"); ("s_5_a", "s"); ("t_5_c", "t"); ("s_6_c", "s")]
  /\ JsMap.get (appended Run.tied) "s_5_a" = Some (Build_StoredEvent "s" "m2")
  /\ replay_calls codeUnitCompare (appended Run.tied) "s_5_b"
     = (Some "s", [("s_6_c", "m3")]).
Proof.
  split; [discriminate|]. repeat split.
Qed.

(** C7. When [lastEventId] is empty or is not the id of a stored event,
    [replayEventsAfter] resolves with the empty string and leaves the
    consumer untouched: [send] is not called. *)
Theorem replay_nothing_to_resume
    {Message W : Type} (localeCompare : string -> string -> Z)
    (send : string -> Message -> Async.t W unit)
    (events : Events Message) (lastEventId : string) (w : W) :
  lastEventId = EmptyString \/ JsMap.has events lastEventId = false ->
  replayEventsAfter localeCompare send events lastEventId w = (Some EmptyString, w)
  /\ replay_calls localeCompare events lastEventId = (Some EmptyString, []).
Proof.
  intros H. unfold replay_calls, replayEventsAfter.
  destruct H as [-> | H].
  - simpl. split; reflexivity.
  - rewrite H, orb_true_r. split; reflexivity.
Qed.

(** C7 on the store of [Run.ascending]: the id [t_9_z] is unknown. *)
Lemma replay_nothing_to_resume_witness :
  replay_calls codeUnitCompare (appended Run.ascending) "t_9_z"
  = (Some EmptyString, []).
Proof.
  refine (proj2 (@replay_nothing_to_resume string (list (string * string))
                   codeUnitCompare Async.record (appended Run.ascending)
                   "t_9_z" [] _)).
  right. reflexivity.
Defined.

(** C4 at a stream id with an underscore. The event appended to stream
    [a_b] is stored under [a_b_5_a] with [streamId] equal to [a_b]; a replay
    after it resolves with [a], whatever the collation. *)
Theorem replay_returns_parsed_prefix (localeCompare : string -> string -> Z) :
  fst Run.underscored = "a_b_5_a"
  /\ JsMap.get (snd Run.underscored) "a_b_5_a" = Some (Build_StoredEvent "a_b" "m")
  /\ replay_calls localeCompare (snd Run.underscored) "a_b_5_a" = (Some "a", []).
Proof.
  repeat split.
Qed.

(** C3 at a stream id with an underscore. The store holding one event of
    stream [a_b] is reachable, [clearStream] of [a_b] leaves it as it is,
    and the stream still counts one event. *)
Theorem clearStream_misses_underscored_stream :
  reachable (snd Run.underscored)
  /\ clearStream (snd Run.underscored) "a_b" = snd Run.underscored
  /\ getStreamEventCount (clearStream (snd Run.underscored) "a_b") "a_b" = 1%Z.
Proof.
  split; [apply reach_store, reach_new|]. split; reflexivity.
Qed.

(** C10 at two streams of which one id prefixes the other. The store
    holding one event of stream [a_b] is reachable; [clearStream] of the
    other stream [a] deletes that event. *)
Theorem clearStream_deletes_other_stream :
  reachable (snd Run.underscored)
  /\ JsMap.get (snd Run.underscored) "a_b_5_a" = Some (Build_StoredEvent "a_b" "m")
  /\ "a_b" <> "a"
  /\ JsMap.get (clearStream (snd Run.underscored) "a") "a_b_5_a" = None.
Proof.
  split; [apply reach_store, reach_new|].
  split; [reflexivity|]. split; [discriminate|reflexivity].
Qed.

(** X1, beside C3. When every append was to a stream id without underscore,
    [clearStream] leaves no record of the stream and its count is zero. *)
Theorem clearStream_clears_plain_stream
    {Message : Type} (events : Events Message) (sid : string) :
  reachable_plain events ->
  (forall eventId ev,
     JsMap.get (clearStream events sid) eventId = Some ev -> streamId ev <> sid)
  /\ getStreamEventCount (clearStream events sid) sid = 0%Z.
Proof.
  intros Hreach. pose proof (reachable_plain_keyed _ Hreach) as Hkeyed.
  assert (Hleft : forall k ev, In (k, ev) (clearStream events sid) ->
                               streamId ev <> sid).
  { intros k ev Hin. rewrite clearStream_filter in Hin.
    apply filter_In in Hin as [Hin Hk]. simpl in Hk.
    destruct (Hkeyed k ev Hin) as [<- _].
    now apply negb_true_iff, String.eqb_neq in Hk. }
  split.
  - intros k ev Hget. apply (Hleft k). now apply JsMapFacts.get_Some_In.
  - unfold getStreamEventCount. rewrite ListFacts.filter_none; [reflexivity|].
    intros [s msg] Hin. apply in_map_iff in Hin as [[k ev] [E Hin]].
    simpl in E. subst ev. apply String.eqb_neq. exact (Hleft k _ Hin).
Qed.

(** X1 on the store of [Run.ascending]. *)
Lemma clearStream_clears_plain_stream_witness :
  getStreamEventCount (clearStream (appended Run.ascending) "s") "s" = 0%Z.
Proof.
  refine (proj2 (clearStream_clears_plain_stream (appended Run.ascending) "s" _)).
  unfold appended, Run.ascending. simpl.
  repeat (apply (plain_store _ _ _ _ _); [|reflexivity]). apply plain_new.
Defined.

(** X2, beside C10. When every append was to a stream id without underscore,
    [clearStream] leaves every record of another stream as it is. *)
Theorem clearStream_keeps_other_plain_streams
    {Message : Type} (events : Events Message) (sid eventId : string)
    (ev : StoredEvent Message) :
  reachable_plain events ->
  JsMap.get events eventId = Some ev ->
  streamId ev <> sid ->
  JsMap.get (clearStream events sid) eventId = Some ev.
Proof.
  intros Hreach Hget Hne.
  pose proof (reachable_plain_keyed _ Hreach) as Hkeyed.
  destruct (Hkeyed eventId ev (JsMapFacts.get_Some_In _ _ _ Hget)) as [Hp _].
  rewrite clearStream_filter, JsMapFacts.get_filter_keep; [exact Hget|].
  intros v. simpl. rewrite Hp. now apply negb_true_iff, String.eqb_neq.
Qed.

(** X2 on the store of [Run.ascending]: the event of stream [t] stays. *)
Lemma clearStream_keeps_other_plain_streams_witness :
  JsMap.get (clearStream (appended Run.ascending) "s") "t_6_c"
  = Some (Build_StoredEvent "t" "f1").
Proof.
  refine (clearStream_keeps_other_plain_streams (appended Run.ascending)
            "s" "t_6_c" (Build_StoredEvent "t" "f1") _ _ _).
  - unfold appended, Run.ascending. simpl.
    repeat (apply (plain_store _ _ _ _ _); [|reflexivity]). apply plain_new.
  - reflexivity.
  - discriminate.
Defined.

(** X3, beside C4. When every append was to a stream id without underscore, a
    replay after a stored event resolves with the stream id stored with
    that event, whether or not events follow it. *)
Theorem replay_returns_plain_stream
    {Message : Type} (localeCompare : string -> string -> Z)
    (events : Events Message) (lastEventId : string) (ev : StoredEvent Message) :
  reachable_plain events ->
  JsMap.get events lastEventId = Some ev ->
  fst (replay_calls localeCompare events lastEventId) = Some (streamId ev).
Proof.
  intros Hreach Hget.
  pose proof (reachable_plain_keyed _ Hreach) as Hkeyed.
  destruct (Hkeyed lastEventId ev (JsMapFacts.get_Some_In _ _ _ Hget)) as [Hp Ht].
  unfold replay_calls, replayEventsAfter, JsMap.has. rewrite Ht, Hget, Hp.
  cbn [negb orb].
  destruct (streamId ev) as [|c s] eqn:Es; [reflexivity|].
  cbn [JsString.truthy negb]. unfold Async.bind.
  pose proof (replay_loop_record_resolves (String c s) lastEventId
                (JsArray.sort (compareEntries localeCompare) (JsMap.entries events))
                false []) as Hres.
  destruct (replay_loop _ _ _ _ _ _) as [[[]|] calls]; [reflexivity|discriminate].
Qed.

(** X3 on the store of [Run.ascending], after the last event of [s]. *)
Lemma replay_returns_plain_stream_witness :
  fst (replay_calls codeUnitCompare (appended Run.ascending) "s_7_d") = Some "s".
Proof.
  refine (replay_returns_plain_stream codeUnitCompare (appended Run.ascending)
            "s_7_d" (Build_StoredEvent "s" "m3") _ _).
  - unfold appended, Run.ascending. simpl.
    repeat (apply (plain_store _ _ _ _ _); [|reflexivity]). apply plain_new.
  - reflexivity.
Defined.

End EventLogSpec.

(* ================================================================== *)
(** * The schema and the registry *)
(* ================================================================== *)

Module ConfigFacts.
Import Config ListFacts.


Lemma append_assoc (a b c : string) : ((a ++ b) ++ c = a ++ (b ++ c))%string.
Proof.
  induction a as [|x a IH]; simpl; [reflexivity|]. now rewrite IH.
Qed.

Lemma append_nil_r (a : string) : (a ++ EmptyString = a)%string.
Proof.
  induction a as [|x a IH]; simpl; [reflexivity|]. now rewrite IH.
Qed.

Lemma substring_of_suffix (pre s t : string) :
  JsString.substring_of s t -> JsString.substring_of s (pre ++ t).
Proof.
  intros [b [a ->]]. exists (pre ++ b)%string, a. now rewrite append_assoc.
Qed.

Lemma join_substring (sep : string) (l : list string) (x : string) :
  In x l -> JsString.substring_of x (JsString.join sep l).
Proof.
  induction l as [|y l IH]; [intros []|].
  intros Hin. destruct l as [|z l].
  - destruct Hin as [->|[]]. exists EmptyString, EmptyString.
    simpl. now rewrite append_nil_r.
  - change (JsString.join sep (y :: z :: l))
      with (y ++ sep ++ JsString.join sep (z :: l))%string.
    destruct Hin as [->|Hin].
    + exists EmptyString, (sep ++ JsString.join sep (z :: l))%string. reflexivity.
    + apply substring_of_suffix, substring_of_suffix. now apply IH.
Qed.

Section Schema.
Variable isUrl : string -> bool.

(** A failed parse reports the issues of every key, in schema order, and
    at least one. *)
Lemma parse_failure (q : QueryParams) (errors : list ZodIssue) :
  DynamicConfigSchema_parse isUrl q = inr errors ->
  errors = flat_map (field_issues isUrl q) schema_keys /\ errors <> [].
Proof.
  unfold DynamicConfigSchema_parse, flat_map, schema_keys, field_issues.
  cbn [String.eqb Ascii.eqb Bool.eqb].
  generalize (string_url isUrl "Invalid GitLab API URL" (prop q "api_url")).
  generalize (string_min1 "Access token is required" (prop q "access_token")).
  generalize (string_optional (prop q "project_id")).
  generalize (true_false (prop q "read_only")).
  generalize (true_false (prop q "use_wiki")).
  generalize (true_false (prop q "use_milestone")).
  generalize (true_false (prop q "use_pipeline")).
  intros r7 r6 r5 r4 r3 r2 r1.
  destruct r1, r2, r3, r4, r5, r6, r7; intros [= <-];
    (split; [simpl; rewrite ?app_nil_r; reflexivity|]);
    simpl; discriminate.
Qed.

Lemma parse_success (q : QueryParams) (config : DynamicConfig) :
  DynamicConfigSchema_parse isUrl q = inl config ->
  flat_map (field_issues isUrl q) schema_keys = [].
Proof.
  unfold DynamicConfigSchema_parse, flat_map, schema_keys, field_issues.
  cbn [String.eqb Ascii.eqb Bool.eqb].
  generalize (string_url isUrl "Invalid GitLab API URL" (prop q "api_url")).
  generalize (string_min1 "Access token is required" (prop q "access_token")).
  generalize (string_optional (prop q "project_id")).
  generalize (true_false (prop q "read_only")).
  generalize (true_false (prop q "use_wiki")).
  generalize (true_false (prop q "use_milestone")).
  generalize (true_false (prop q "use_pipeline")).
  intros r7 r6 r5 r4 r3 r2 r1.
  destruct r1, r2, r3, r4, r5, r6, r7; intros H; try discriminate H.
  reflexivity.
Qed.

(** The schema of a key raises an issue exactly when the field offends in
    the specification's sense, and the issue carries the key as its path. *)
Lemma field_issues_offending (q : QueryParams) (key : string) :
  In key schema_keys ->
  (offending isUrl q key = true ->
     exists msg, field_issues isUrl q key = [Build_ZodIssue [key] msg])
  /\ (offending isUrl q key = false -> field_issues isUrl q key = []).
Proof.
  unfold schema_keys. intros Hin.
  repeat (destruct Hin as [<-|Hin]); try contradiction;
    unfold offending, field_issues; cbn [String.eqb Ascii.eqb Bool.eqb];
    destruct (prop q _) as [|s|ty]; simpl;
    repeat match goal with
      | |- context [if ?b then _ else _] => destruct b; simpl
      | |- context [match ?x with EmptyString => _ | String _ _ => _ end] =>
          destruct x; simpl
      end;
    split; intros H; try discriminate H; eauto.
Qed.

End Schema.

Lemma sessions_with_sessions (m : Manager) s : sessions (with_sessions m s) = s.
Proof. reflexivity. Qed.

(** Every operation of the registry keeps its keys unique. *)
Lemma createSessionConfig_wf isUrl created used sid q (m : Manager) :
  JsMap.wf (sessions m) ->
  JsMap.wf (sessions (snd (createSessionConfig isUrl created used sid q m))).
Proof.
  intros Hwf. unfold createSessionConfig.
  destruct (DynamicConfigSchema_parse isUrl q); simpl; [|exact Hwf].
  apply JsMapFacts.wf_set.
  destruct (maxSessions m <=? JsMap.size (sessions m))%Z; [|exact Hwf].
  now apply JsMapFacts.wf_delete_all.
Qed.

Lemma getSessionConfig_wf now refreshed sid (m : Manager) :
  JsMap.wf (sessions m) ->
  JsMap.wf (sessions (snd (getSessionConfig now refreshed sid m))).
Proof.
  intros Hwf. unfold getSessionConfig.
  destruct (JsMap.get (sessions m) sid); [|exact Hwf].
  destruct (sessionTimeout m <? now - lastUsed s)%Z; simpl.
  - now apply JsMapFacts.wf_delete.
  - now apply JsMapFacts.wf_set.
Qed.

Lemma removeSessionConfig_wf sid (m : Manager) :
  JsMap.wf (sessions m) ->
  JsMap.wf (sessions (snd (removeSessionConfig sid m))).
Proof. intros Hwf. now apply JsMapFacts.wf_delete. Qed.

Lemma cleanupExpiredSessions_wf now (m : Manager) :
  JsMap.wf (sessions m) ->
  JsMap.wf (sessions (cleanupExpiredSessions now m)).
Proof. intros Hwf. now apply JsMapFacts.wf_delete_all. Qed.

Lemma new_manager_wf maxSessions minutes :
  JsMap.wf (sessions (new_manager maxSessions minutes)).
Proof. apply JsMapFacts.wf_empty. Qed.

End ConfigFacts.

(* ================================================================== *)
(** * SessionRegistry: creation, eviction and expiry *)
(* ================================================================== *)

Module SessionRegistrySpec.
Import Config ConfigFacts ListFacts.

Local Ltac distinct_strings :=
  repeat constructor; simpl; intuition discriminate.

Lemma cleanupCount_checked : cleanupCount_is_tenth_below 2049 = true.
Proof. vm_compute. reflexivity. Qed.

Lemma cleanupCount_below (bound n : Z) :
  cleanupCount_is_tenth_below bound = true ->
  (0 <= n < bound)%Z -> cleanupCount n = (n / 10)%Z.
Proof.
  unfold cleanupCount_is_tenth_below. intros Hall H.
  rewrite forallb_forall in Hall.
  specialize (Hall (Z.to_nat n)). rewrite Z2Nat.id in Hall by lia.
  apply Z.eqb_eq, Hall. apply in_seq. lia.
Qed.

(** X4. On capacities up to 2048, which include the default 1000, the
    count [Math.floor(maxSessions * 0.1)] is the integer quotient by ten. *)
Lemma cleanupCount_small (n : Z) :
  (0 <= n <= 2048)%Z -> cleanupCount n = (n / 10)%Z.
Proof.
  intros H. apply (cleanupCount_below 2049); [exact cleanupCount_checked|lia].
Qed.

(** X4 at the default capacity. *)
Lemma cleanupCount_small_witness : cleanupCount 1000 = 100%Z.
Proof.
  refine (cleanupCount_small 1000 _). lia.
Defined.




(** C5. When validation of the input fails, [createSessionConfig] throws an
    error whose message is the heading followed by one [path: message] item
    for each issue; the issues are not empty, every key of the schema whose
    field offends has an issue with that key as its path and its item
    occurs in the message, every issue belongs to an offending key, and the
    registry is returned as it was. *)
Theorem create_rejects_invalid_input
    (isUrl : string -> bool) (created used : Z) (sid : string)
    (q : QueryParams) (m : Manager) (errors : list ZodIssue) :
  DynamicConfigSchema_parse isUrl q = inr errors ->
  createSessionConfig isUrl created used sid q m = (Thrown (error_message errors), m)
  /\ errors <> []
  /\ (forall key, In key schema_keys -> offending isUrl q key = true ->
        exists msg,
          In (Build_ZodIssue [key] msg) errors
          /\ JsString.substring_of (key ++ ": " ++ msg) (error_message errors))
  /\ (forall e, In e errors ->
        exists key, In key schema_keys /\ offending isUrl q key = true
                    /\ path e = [key]).
Proof.
  intros Hparse.
  destruct (parse_failure isUrl q errors Hparse) as [Herr Hne].
  split; [|split; [exact Hne|split]].
  - unfold createSessionConfig. now rewrite Hparse.
  - intros key Hkey Hoff.
    destruct (proj1 (field_issues_offending isUrl q key Hkey) Hoff) as [msg Hmsg].
    exists msg.
    assert (Hin : In (Build_ZodIssue [key] msg) errors).
    { rewrite Herr. apply in_flat_map. exists key. split; [exact Hkey|].
      rewrite Hmsg. now left. }
    split; [exact Hin|].
    unfold error_message. apply substring_of_suffix.
    apply join_substring.
    change (key ++ ": " ++ msg)%string with (format_issue (Build_ZodIssue [key] msg)).
    now apply in_map.
  - intros e He. rewrite Herr in He. apply in_flat_map in He as [key [Hkey He]].
    exists key. split; [exact Hkey|].
    destruct (field_issues_offending isUrl q key Hkey) as [Hyes Hno].
    destruct (offending isUrl q key) eqn:Hoff.
    + split; [reflexivity|]. destruct (Hyes eq_refl) as [msg Hmsg].
      rewrite Hmsg in He. destruct He as [<-|[]]. reflexivity.
    + rewrite (Hno eq_refl) in He. destruct He.
Qed.

(** C5 on the parameters [Run.bad_query]: the URL is malformed, the token
    is missing and two toggles are not literals; the message names all
    four, and the registry is unchanged. *)
Lemma create_rejects_invalid_input_witness :
  createSessionConfig Run.isUrl 1 2 "x" Run.bad_query Run.five
  = (Thrown (error_message Run.bad_issues), Run.five).
Proof.
  refine (proj1 (create_rejects_invalid_input Run.isUrl 1 2 "x" Run.bad_query
                   Run.five Run.bad_issues _)).
  reflexivity.
Defined.

Example bad_issues_message :
  error_message Run.bad_issues
  = "Invalid configuration parameters: api_url: Invalid GitLab API URL, access_token: Required, read_only: Invalid enum value. Expected 'true' | 'false', received 'yes', use_wiki: Expected 'true' | 'false', received array".
Proof. reflexivity. Qed.



End SessionRegistrySpec.

(* ================================================================== *)
(** * The client pool *)
(* ================================================================== *)

Module ClientFacts.
Import Config Client ListFacts.

Lemma NoDup_map_filter {A B : Type} (g : A -> B) (p : A -> bool) (l : list A) :
  NoDup (map g l) -> NoDup (map g (filter p l)).
Proof.
  induction l as [|a l IH]; simpl; [auto|].
  intros Hnd. inversion Hnd as [|? ? Hnotin Hnd']; subst.
  destruct (p a); simpl; [|auto].
  constructor; [|auto].
  intros Hin. apply Hnotin. apply in_map_iff in Hin as [a' [Ha Hin]].
  apply filter_In in Hin as [Hin _]. rewrite <- Ha. now apply in_map.
Qed.

Section Pool.
Variable env : Env.

Lemma pool_ok_new : pool_ok new_pool.
Proof.
  unfold pool_ok, new_pool. simpl. repeat split; try constructor; contradiction.
Qed.

Lemma pool_ok_getClient (sc : SessionConfig) (p : ClientManager) :
  pool_ok p -> pool_ok (snd (getClient env sc p)).
Proof.
  intros (Hwf & Hrefs & Hin). unfold getClient.
  destruct (JsMap.get (clients p) (sessionId sc)) eqn:Hget; simpl.
  - exact (conj Hwf (conj Hrefs Hin)).
  - rewrite (JsMapFacts.set_new _ _ _ Hget). repeat split.
    + simpl. rewrite <- (JsMapFacts.set_new _ _ _ Hget).
      now apply JsMapFacts.wf_set.
    + simpl. rewrite map_app. simpl.
      apply NoDup_app; [exact Hrefs|repeat constructor; simpl; tauto|].
      intros r Hr [<-|[]].
      apply in_map_iff in Hr as [[k c] [Hk Hc]]. simpl in Hk.
      destruct (Hin k c Hc) as [Hlt _]. lia.
    + simpl in H. apply in_app_or in H as [H|[H|[]]].
      * destruct (Hin k c H) as [Hlt _]. simpl. lia.
      * injection H as <- <-. simpl. lia.
    + simpl in H. apply in_app_or in H as [H|[H|[]]].
      * now destruct (Hin k c H).
      * now injection H as <- <-.
Qed.

Lemma pool_ok_step (p : ClientManager) (c : Call) :
  pool_ok p -> pool_ok (step env p c).
Proof.
  intros Hok. destruct c as [sc|sid| |]; simpl.
  - now apply pool_ok_getClient.
  - destruct Hok as (Hwf & Hrefs & Hin). repeat split; simpl.
    + now apply JsMapFacts.wf_delete.
    + now apply NoDup_map_filter.
    + apply filter_In in H as [H _]. now destruct (Hin k c H).
    + apply filter_In in H as [H _]. now destruct (Hin k c H).
  - exact Hok.
  - unfold pool_ok, clearAll. simpl. repeat split; try constructor; contradiction.
Qed.

Lemma pool_ok_run (calls : list Call) (p : ClientManager) :
  pool_ok p -> pool_ok (run env p calls).
Proof.
  revert p. induction calls as [|c calls IH]; intros p Hok; simpl; [exact Hok|].
  apply IH. now apply pool_ok_step.
Qed.

(** A call that does not remove the client of [sid] by name leaves it. *)
Lemma step_keeps (p : ClientManager) (c : Call) (sid : string)
    (client : SessionAwareGitLabClient) :
  JsMap.get (clients p) sid = Some client ->
  removes sid c = false ->
  JsMap.get (clients (step env p c)) sid = Some client.
Proof.
  intros Hget Hrem. destruct c as [sc|s| |]; simpl in *.
  - unfold getClient.
    destruct (JsMap.get (clients p) (sessionId sc)) eqn:Hsc; simpl; [exact Hget|].
    rewrite JsMapFacts.get_set_other; [exact Hget|].
    intros E. rewrite E in Hsc. congruence.
  - apply String.eqb_neq in Hrem. now rewrite JsMapFacts.get_delete_other.
  - exact Hget.
  - discriminate.
Qed.

Lemma run_keeps (calls : list Call) (p : ClientManager) (sid : string)
    (client : SessionAwareGitLabClient) :
  JsMap.get (clients p) sid = Some client ->
  forallb (fun c => negb (removes sid c)) calls = true ->
  JsMap.get (clients (run env p calls)) sid = Some client.
Proof.
  revert p. induction calls as [|c calls IH]; intros p Hget Hall; simpl;
    [exact Hget|].
  simpl in Hall. apply andb_true_iff in Hall as [Hc Hall].
  apply IH; [|exact Hall].
  apply step_keeps; [exact Hget|]. now apply negb_true_iff.
Qed.

Lemma getClient_present (sc : SessionConfig) (p : ClientManager) :
  JsMap.get (clients (snd (getClient env sc p))) (sessionId sc)
  = Some (fst (getClient env sc p)).
Proof.
  unfold getClient.
  destruct (JsMap.get (clients p) (sessionId sc)) eqn:Hget; simpl; [exact Hget|].
  apply JsMapFacts.get_set_same.
Qed.

End Pool.
End ClientFacts.

(* ================================================================== *)
(** * ClientPool and SessionApiClient *)
(* ================================================================== *)

Module ClientPoolSpec.
Import Config Client ClientFacts.

(** C8. In a pool reached from a new one by any calls, let [getClient] be
    called with a session record, then any calls that neither remove that
    session id nor clear the pool, then [getClient] with a record of the
    same session id. The second call returns the client of the first and
    leaves the pool as it is; when the first call found no client, that
    client is the object it constructed, bound to the first record,
    whatever the second record holds. The pool keeps one entry per session
    id and no client under two ids, and a call after which an id no longer
    holds its client is a removal of that id or a clearing. *)
Theorem getClient_reuses_instance
    (env : Env) (before between : list Call) (sc1 sc2 : SessionConfig) :
  sessionId sc2 = sessionId sc1 ->
  forallb (fun c => negb (removes (sessionId sc1) c)) between = true ->
  let p := run env new_pool before in
  let r1 := getClient env sc1 p in
  let p1 := run env (snd r1) between in
  let r2 := getClient env sc2 p1 in
  fst r2 = fst r1
  /\ snd r2 = p1
  /\ (JsMap.has (clients p) (sessionId sc1) = false ->
        fst r1 = new_client env (constructed p) sc1
        /\ sessionConfig (fst r2) = sc1)
  /\ pool_ok (snd r2)
  /\ (forall (p' : ClientManager) (call : Call) (sid : string)
             (client : SessionAwareGitLabClient),
        JsMap.get (clients p') sid = Some client ->
        JsMap.get (clients (step env p' call)) sid <> Some client ->
        removes sid call = true).
Proof.
  intros Hid Hall p r1 p1 r2.
  assert (Hkept : JsMap.get (clients p1) (sessionId sc2) = Some (fst r1)).
  { rewrite Hid. apply run_keeps; [apply getClient_present|exact Hall]. }
  assert (Hr2 : r2 = (fst r1, p1)).
  { unfold r2, getClient. now rewrite Hkept. }
  assert (Hnew : JsMap.has (clients p) (sessionId sc1) = false ->
                 fst r1 = new_client env (constructed p) sc1).
  { unfold JsMap.has, r1, getClient.
    destruct (JsMap.get (clients p) (sessionId sc1)); [discriminate|reflexivity]. }
  rewrite Hr2. simpl.
  split; [reflexivity|]. split; [reflexivity|]. split; [|split].
  - intros Hnone. split; [now apply Hnew|]. now rewrite (Hnew Hnone).
  - apply pool_ok_run, pool_ok_getClient, pool_ok_run, pool_ok_new.
  - intros p' call sid client Hget Hgone.
    destruct (removes sid call) eqn:Hrem; [reflexivity|].
    exfalso. apply Hgone. now apply step_keeps.
Qed.

(** C8 on a new pool: between the two calls for [s0] the pool is counted
    and serves the session [s1]; the second call, with the recreated
    record, returns the first client, bound to the first record. *)
Lemma getClient_reuses_instance_witness :
  fst (getClient Run.env Run.second_record
         (run Run.env (snd (getClient Run.env Run.first_record new_pool))
              [CallGetActiveClientCount; CallGetClient Run.other_record]))
  = fst (getClient Run.env Run.first_record new_pool).
Proof.
  refine (proj1 (getClient_reuses_instance Run.env []
                   [CallGetActiveClientCount; CallGetClient Run.other_record]
                   Run.first_record Run.second_record _ _)).
  - reflexivity.
  - reflexivity.
Defined.

Example reused_client_is_bound_to_first_record :
  sessionConfig
    (fst (getClient Run.env Run.second_record
            (snd (getClient Run.env Run.first_record new_pool))))
  = Run.first_record.
Proof. reflexivity. Qed.

(** C9, as amended. [getEffectiveProjectId] returns the caller's identifier
    when one is given and is not empty; when none is given or the one given
    is empty, it returns the configured default when there is one and it is
    not empty, and the empty string otherwise. *)
Theorem effective_project_id_precedence
    (c : SessionAwareGitLabClient) (requestProjectId : option string) :
  (forall r, requestProjectId = Some r -> r <> EmptyString ->
     getEffectiveProjectId c requestProjectId = r)
  /\ (requestProjectId = None \/ requestProjectId = Some EmptyString ->
      (forall d, project_id (config (sessionConfig c)) = Some d ->
         d <> EmptyString -> getEffectiveProjectId c requestProjectId = d)
      /\ (project_id (config (sessionConfig c)) = None
          \/ project_id (config (sessionConfig c)) = Some EmptyString ->
          getEffectiveProjectId c requestProjectId = EmptyString)).
Proof.
  unfold getEffectiveProjectId. split.
  - intros r -> Hr. destruct r; [contradiction|reflexivity].
  - intros Hreq. split.
    + intros d Hd Hne. rewrite Hd.
      destruct Hreq as [-> | ->]; simpl; destruct d; try contradiction; reflexivity.
    + intros Hd.
      destruct Hreq as [-> | ->], Hd as [-> | ->]; reflexivity.
Qed.

(** The amended C9 on a client with default project [42]: the explicit
    argument [7] is returned. *)
Lemma effective_project_id_precedence_witness :
  getEffectiveProjectId (new_client Run.env 0 Run.first_record) (Some "7") = "7".
Proof.
  refine (proj1 (effective_project_id_precedence
                   (new_client Run.env 0 Run.first_record) (Some "7"))
                "7" eq_refl _).
  discriminate.
Defined.

(** C9 as stated fails. A client whose session configures the default
    project [42], asked with the empty string as explicit argument, answers
    [42] and not the argument. *)
Lemma explicit_empty_argument_yields_default :
  project_id (config Run.first_record) = Some "42"
  /\ getEffectiveProjectId (new_client Run.env 0 Run.first_record)
                           (Some EmptyString)
     = "42"
  /\ "42" <> EmptyString.
Proof.
  split; [reflexivity|]. split; [reflexivity|discriminate].
Qed.

End ClientPoolSpec.

(* ================================================================== *)
(** * EventLog: further properties *)
(* ================================================================== *)

Module EventLogMore.
Import EventStore EventStoreFacts ListFacts Async.Notations.

Lemma parse_step (c : ascii) (s : string) :
  getStreamIdFromEventId (String c s)
  = if Ascii.eqb c "_" then EmptyString
    else String c (getStreamIdFromEventId s).
Proof.
  unfold getStreamIdFromEventId. simpl.
  destruct (Ascii.eqb c "_"); [reflexivity|].
  destruct (JsString.split "_" s) eqn:E; [|reflexivity].
  destruct s; simpl in E; [discriminate|].
  destruct (Ascii.eqb a "_"); [discriminate|].
  destruct (JsString.split "_" s); discriminate.
Qed.

Lemma parse_append (s rest : string) :
  getStreamIdFromEventId (s ++ String "_" rest) = getStreamIdFromEventId s.
Proof.
  induction s as [|c s IH].
  - reflexivity.
  - change ((String c s ++ String "_" rest)%string)
      with (String c (s ++ String "_" rest)).
    rewrite !parse_step, IH. reflexivity.
Qed.

Lemma parse_fixed (s : string) :
  getStreamIdFromEventId s = s <-> JsString.mem "_" s = false.
Proof.
  induction s as [|c s IH].
  - split; reflexivity.
  - rewrite parse_step. simpl. destruct (Ascii.eqb c "_"); simpl.
    + split; discriminate.
    + rewrite <- IH. split; [intros [= H]|intros ->]; congruence.
Qed.

(** X5. The stream id parsed from a generated event id is the text of the
    stream id before its first underscore; it is the stream id itself
    exactly when the stream id holds no underscore. *)
Theorem generated_id_parses_to_prefix (now : Z) (rnd streamId : string) :
  getStreamIdFromEventId (generateEventId now rnd streamId)
  = getStreamIdFromEventId streamId
  /\ (getStreamIdFromEventId (generateEventId now rnd streamId) = streamId
      <-> JsString.mem "_" streamId = false).
Proof.
  assert (H : getStreamIdFromEventId (generateEventId now rnd streamId)
              = getStreamIdFromEventId streamId).
  { unfold generateEventId. simpl. apply parse_append. }
  split; [exact H|]. rewrite H. apply parse_fixed.
Qed.

(** X6. [storeEvent] files the record under the generated id: looking that
    id up gives the stream id and the message, every other id is as before,
    and the number of events grows by one unless the id was already there,
    in which case the older record is replaced. *)
Theorem storeEvent_lookup {Message : Type} (now : Z) (rnd : string)
    (events : Events Message) (streamId : string) (message : Message) :
  let eventId := fst (storeEvent now rnd events streamId message) in
  let events' := snd (storeEvent now rnd events streamId message) in
  eventId = generateEventId now rnd streamId
  /\ JsMap.get events' eventId = Some (Build_StoredEvent streamId message)
  /\ (forall other, other <> eventId ->
        JsMap.get events' other = JsMap.get events other)
  /\ getEventCount events'
     = (getEventCount events + if JsMap.has events eventId then 0 else 1)%Z.
Proof.
  simpl. split; [reflexivity|]. split; [apply JsMapFacts.get_set_same|]. split.
  - intros other Hne. apply JsMapFacts.get_set_other. congruence.
  - unfold getEventCount, JsMap.size.
    destruct (JsMap.has events (generateEventId now rnd streamId)) eqn:E.
    + apply JsMapFacts.has_true_iff in E.
      rewrite JsMapFacts.length_set_present by exact E. lia.
    + apply JsMapFacts.has_false_iff, JsMapFacts.get_None_iff in E.
      rewrite (JsMapFacts.set_new _ _ _ E), length_app. simpl. lia.
Qed.

Section Loop.
Context {Message : Type}.

Lemma loop_records (streamId lastEventId : string)
    (l : list (string * StoredEvent Message)) found calls :
  replay_loop Async.record streamId lastEventId l found calls
  = (Some tt, calls ++ events_to_send streamId lastEventId l found).
Proof.
  revert found calls.
  induction l as [|[eventId [s msg]] l IH]; intros found calls; simpl.
  - now rewrite app_nil_r.
  - destruct (String.eqb s streamId); simpl; [|apply IH].
    destruct (String.eqb eventId lastEventId); [apply IH|].
    destruct found; [|apply IH].
    unfold Async.bind, Async.record. rewrite IH, <- app_assoc. reflexivity.
Qed.

Lemma loop_for_each {W : Type} (send : string -> Message -> Async.t W unit)
    (streamId lastEventId : string)
    (l : list (string * StoredEvent Message)) found w :
  replay_loop send streamId lastEventId l found w
  = Async.for_each (fun c => send (fst c) (snd c))
      (events_to_send streamId lastEventId l found) w.
Proof.
  revert found w.
  induction l as [|[eventId [s msg]] l IH]; intros found w; simpl;
    [reflexivity|].
  destruct (String.eqb s streamId); simpl; [|apply IH].
  destruct (String.eqb eventId lastEventId); [apply IH|].
  destruct found; [|apply IH].
  simpl. unfold Async.bind.
  destruct (send eventId msg w) as [[[]|] w']; [apply IH|reflexivity].
Qed.

(** An event to send is an entry of the stream, other than the last seen
    one, and stands behind an entry of the last seen id unless the loop
    started with the flag set. *)
Lemma to_send_origin (streamId lastEventId : string)
    (l : list (string * StoredEvent Message)) found id msg :
  In (id, msg) (events_to_send streamId lastEventId l found) ->
  In (id, Build_StoredEvent streamId msg) l
  /\ id <> lastEventId
  /\ (found = true
      \/ exists l1 ev l2, l = l1 ++ (lastEventId, ev) :: l2
                          /\ In (id, Build_StoredEvent streamId msg) l2).
Proof.
  revert found.
  induction l as [|[eventId [s m]] l IH]; intros found Hin; simpl in Hin;
    [destruct Hin|].
  destruct (String.eqb s streamId) eqn:Es; simpl in Hin.
  - apply String.eqb_eq in Es. subst s.
    destruct (String.eqb eventId lastEventId) eqn:El.
    + apply String.eqb_eq in El. subst eventId.
      destruct (IH true Hin) as (H1 & H2 & _).
      split; [now right|]. split; [exact H2|].
      right. exists [], (Build_StoredEvent streamId m), l. now split.
    + apply String.eqb_neq in El.
      assert (Hrest : In (id, msg) (events_to_send streamId lastEventId l found) ->
                In (id, Build_StoredEvent streamId msg)
                   ((eventId, Build_StoredEvent streamId m) :: l)
                /\ id <> lastEventId
                /\ (found = true
                    \/ exists l1 ev l2,
                         (eventId, Build_StoredEvent streamId m) :: l
                         = l1 ++ (lastEventId, ev) :: l2
                         /\ In (id, Build_StoredEvent streamId msg) l2)).
      { intros H. destruct (IH found H) as (H1 & H2 & H3).
        split; [now right|]. split; [exact H2|].
        destruct H3 as [H3|(l1 & ev & l2 & -> & H3)]; [now left|].
        right. exists ((eventId, Build_StoredEvent streamId m) :: l1), ev, l2.
        now split. }
      destruct found; [|now apply Hrest].
      destruct Hin as [E|Hin]; [|now apply Hrest].
      injection E as -> ->. split; [now left|]. split; [exact El|now left].
  - destruct (IH found Hin) as (H1 & H2 & H3).
    split; [now right|]. split; [exact H2|].
    destruct H3 as [H3|(l1 & ev & l2 & -> & H3)]; [now left|].
    right. exists ((eventId, Build_StoredEvent s m) :: l1), ev, l2. now split.
Qed.

Lemma to_send_sorted (R : string -> string -> Prop)
    (streamId lastEventId : string)
    (l : list (string * StoredEvent Message)) found :
  StronglySorted (fun a b => R (fst a) (fst b)) l ->
  StronglySorted (fun a b => R (fst a) (fst b))
                 (events_to_send streamId lastEventId l found).
Proof.
  intros Hs. revert found.
  induction Hs as [|[eventId [s m]] l Hs IH Hall]; intros found; simpl;
    [constructor|].
  destruct (String.eqb s streamId); simpl; [|apply IH].
  destruct (String.eqb eventId lastEventId); [apply IH|].
  destruct found; [|apply IH].
  constructor; [apply IH|].
  rewrite Forall_forall in *. intros [id msg] Hin.
  apply to_send_origin in Hin as [Hin _]. exact (Hall _ Hin).
Qed.

Lemma to_send_NoDup (streamId lastEventId : string)
    (l : list (string * StoredEvent Message)) found :
  NoDup (map fst l) ->
  NoDup (map fst (events_to_send streamId lastEventId l found)).
Proof.
  revert found.
  induction l as [|[eventId [s m]] l IH]; intros found Hnd; simpl;
    [constructor|].
  inversion Hnd as [|? ? Hnotin Hnd']; subst.
  destruct (String.eqb s streamId); simpl; [|now apply IH].
  destruct (String.eqb eventId lastEventId); [now apply IH|].
  destruct found; [|now apply IH].
  simpl. constructor; [|now apply IH].
  intros Hin. apply Hnotin. apply in_map_iff in Hin as [[id msg] [E Hin]].
  simpl in E. subst id. apply to_send_origin in Hin as [Hin _].
  apply (in_map fst) in Hin. exact Hin.
Qed.

End Loop.

(** X7. Whatever the store holds, the events a replay sends are stored
    events of the stream parsed from [lastEventId], each under its own id
    and with its own message; none is the event of [lastEventId] itself,
    each sorts at or after it, and they are sent in ascending order of id,
    no id twice. *)
Theorem replay_sends_later_events_of_stream
    {Message : Type} (localeCompare : string -> string -> Z)
    (events : Events Message) (lastEventId : string) :
  JsArray.consistent localeCompare ->
  JsMap.wf events ->
  let calls := snd (replay_calls localeCompare events lastEventId) in
  (forall id msg, In (id, msg) calls ->
     id <> lastEventId
     /\ JsMap.get events id
        = Some (Build_StoredEvent (getStreamIdFromEventId lastEventId) msg)
     /\ (localeCompare lastEventId id <= 0)%Z)
  /\ StronglySorted (fun a b => (localeCompare (fst a) (fst b) <= 0)%Z) calls
  /\ NoDup (map fst calls).
Proof.
  intros Hc Hwf calls.
  set (sid := getStreamIdFromEventId lastEventId).
  set (sorted := JsArray.sort (compareEntries localeCompare) (JsMap.entries events)).
  assert (Hcalls : calls = [] \/ calls = events_to_send sid lastEventId sorted false).
  { unfold calls, replay_calls, replayEventsAfter.
    destruct (negb (JsString.truthy lastEventId)
              || negb (JsMap.has events lastEventId)); [now left|].
    fold sid. destruct (negb (JsString.truthy sid)); [now left|].
    right. fold sorted. unfold Async.bind. rewrite loop_records. reflexivity. }
  destruct Hcalls as [->| ->].
  { split; [intros ? ? []|]. split; constructor. }
  pose proof (JsArrayFacts.sort_sorted _ (compareEntries_consistent localeCompare Hc)
                (JsMap.entries events)) as Hsorted.
  fold sorted in Hsorted.
  split; [|split].
  - intros id msg Hin. apply to_send_origin in Hin as (Hin & Hne & Hafter).
    split; [exact Hne|]. split.
    + apply JsMapFacts.get_In; [exact Hwf|].
      unfold sorted in Hin.
      exact (proj1 (JsArrayFacts.sort_In (compareEntries localeCompare) _ _) Hin).
    + destruct Hafter as [Hf|(l1 & ev & l2 & Hl & Hin2)]; [discriminate|].
      rewrite Hl in Hsorted.
      assert (Hs2 : StronglySorted (JsArray.le (compareEntries localeCompare))
                      ((lastEventId, ev) :: l2)).
      { clear - Hsorted. induction l1 as [|x l1 IH]; [exact Hsorted|].
        apply IH. now inversion Hsorted. }
      apply StronglySorted_inv in Hs2 as [_ Hall].
      rewrite Forall_forall in Hall. exact (Hall _ Hin2).
  - exact (to_send_sorted (fun a b => (localeCompare a b <= 0)%Z) _ _ _ _ Hsorted).
  - apply to_send_NoDup.
    eapply Permutation_NoDup; [|exact Hwf].
    apply Permutation_map, Permutation_sym, JsArrayFacts.sort_perm.
Qed.

(** X7 on the store of [Run.tied]: the one event sent after [s_5_b] is
    stored, belongs to stream [s] and sorts after [s_5_b]. *)
Lemma replay_sends_later_events_of_stream_witness :
  NoDup (map fst (snd (replay_calls codeUnitCompare (appended Run.tied) "s_5_b"))).
Proof.
  refine (proj2 (proj2
    (replay_sends_later_events_of_stream codeUnitCompare (appended Run.tied)
       "s_5_b" _ _))).
  - exact codeUnitCompare_consistent.
  - repeat constructor; simpl; intuition discriminate.
Defined.

(** X8. With any callback, a replay is the sequence of [send] calls that
    the recording callback lists, each awaited before the next and the
    first rejection ending the replay rejected, followed by the value the
    recording replay resolves with. *)
Theorem replay_is_sequence_of_recorded_calls
    {Message : Type} (localeCompare : string -> string -> Z)
    (events : Events Message) (lastEventId : string) :
  exists result,
    fst (replay_calls localeCompare events lastEventId) = Some result
    /\ forall (W : Type) (send : string -> Message -> Async.t W unit) (w : W),
         replayEventsAfter localeCompare send events lastEventId w
         = (Async.for_each (fun c => send (fst c) (snd c))
              (snd (replay_calls localeCompare events lastEventId)) ;;;
            Async.ret result) w.
Proof.
  unfold replay_calls, replayEventsAfter.
  destruct (negb (JsString.truthy lastEventId)
            || negb (JsMap.has events lastEventId)).
  { exists EmptyString. split; reflexivity. }
  destruct (negb (JsString.truthy (getStreamIdFromEventId lastEventId))).
  { exists EmptyString. split; reflexivity. }
  exists (getStreamIdFromEventId lastEventId).
  assert (Hrec :
    (replay_loop Async.record (getStreamIdFromEventId lastEventId) lastEventId
       (JsArray.sort (compareEntries localeCompare) (JsMap.entries events))
       false ;;;
     Async.ret (getStreamIdFromEventId lastEventId)) []
    = (Some (getStreamIdFromEventId lastEventId),
       events_to_send (getStreamIdFromEventId lastEventId) lastEventId
         (JsArray.sort (compareEntries localeCompare) (JsMap.entries events))
         false)).
  { unfold Async.bind. rewrite loop_records. reflexivity. }
  rewrite Hrec. simpl.
  split; [reflexivity|]. intros W send w.
  unfold Async.bind. rewrite loop_for_each. reflexivity.
Qed.

Lemma filter_filter_same {A : Type} (p : A -> bool) (l : list A) :
  filter p (filter p l) = filter p l.
Proof. apply forallb_filter_id, forallb_filter. Qed.

Lemma filter_filter_swap {A : Type} (p q : A -> bool) (l : list A) :
  filter p (filter q l) = filter q (filter p l).
Proof.
  induction l as [|a l IH]; simpl; [reflexivity|].
  destruct (q a) eqn:Eq, (p a) eqn:Ep; simpl; rewrite ?Eq, ?Ep, IH; reflexivity.
Qed.

(** X9. Clearing a stream twice is clearing it once, clearing two streams
    gives the same store in either order, and clearing adds no event: the
    store holds at most as many events as before and only ids it held. *)
Theorem clearStream_idempotent_and_commutes
    {Message : Type} (events : Events Message) (s t : string) :
  clearStream (clearStream events s) s = clearStream events s
  /\ clearStream (clearStream events s) t = clearStream (clearStream events t) s
  /\ (getEventCount (clearStream events s) <= getEventCount events)%Z
  /\ (forall id ev, JsMap.get (clearStream events s) id = Some ev ->
        In (id, ev) events).
Proof.
  rewrite !clearStream_filter. split; [apply filter_filter_same|].
  split; [apply filter_filter_swap|]. split.
  - unfold getEventCount, JsMap.size. rewrite <- clearStream_filter.
    rewrite clearStream_filter. pose proof (filter_length_le
      (fun e : string * StoredEvent Message =>
         negb (String.eqb (getStreamIdFromEventId (fst e)) s)) events). lia.
  - intros id ev Hget. apply JsMapFacts.get_Some_In in Hget.
    now apply filter_In in Hget as [Hget _].
Qed.

(** X10. When every append was to a stream id without underscore, clearing
    a stream removes as many events as the stream counts. *)
Theorem clearStream_removes_stream_count
    {Message : Type} (events : Events Message) (s : string) :
  reachable_plain events ->
  getEventCount (clearStream events s)
  = (getEventCount events - getStreamEventCount events s)%Z.
Proof.
  intros Hreach. pose proof (reachable_plain_keyed _ Hreach) as Hkeyed.
  rewrite clearStream_filter. unfold getEventCount, getStreamEventCount, JsMap.size.
  unfold JsMap.values.
  assert (E : List.length
                (filter (fun '(Build_StoredEvent eventStreamId _) =>
                           String.eqb eventStreamId s) (map snd events))
              = List.length
                  (filter (fun e : string * StoredEvent Message =>
                             String.eqb (getStreamIdFromEventId (fst e)) s) events)).
  { clear Hreach. induction events as [|[k [sid m]] events IH]; [reflexivity|].
    simpl. destruct (Hkeyed k (Build_StoredEvent sid m)) as [Hp _]; [now left|].
    simpl in Hp. rewrite Hp.
    assert (IH' : List.length
                (filter (fun '(Build_StoredEvent eventStreamId _) =>
                           String.eqb eventStreamId s) (map snd events))
              = List.length
                  (filter (fun e : string * StoredEvent Message =>
                             String.eqb (getStreamIdFromEventId (fst e)) s) events)).
    { apply IH. intros k' ev' Hin. apply Hkeyed. now right. }
    destruct (String.eqb sid s); simpl; now rewrite IH'. }
  rewrite E.
  pose proof (filter_length
    (fun e : string * StoredEvent Message =>
       String.eqb (getStreamIdFromEventId (fst e)) s) events) as Hl.
  lia.
Qed.

(** X10 on the store of [Run.ascending]: clearing [s] leaves one event. *)
Lemma clearStream_removes_stream_count_witness :
  getEventCount (clearStream (appended Run.ascending) "s") = (4 - 3)%Z.
Proof.
  refine (clearStream_removes_stream_count (appended Run.ascending) "s" _).
  unfold appended, Run.ascending. simpl.
  repeat (apply (plain_store _ _ _ _ _); [|reflexivity]). apply plain_new.
Defined.

End EventLogMore.

(* ================================================================== *)
(** * SessionRegistry: further properties *)
(* ================================================================== *)

Module SessionRegistryMore.
Import Config ConfigFacts ListFacts.

Local Ltac distinct_strings :=
  repeat constructor; simpl; intuition discriminate.

Section Schema.
Variable isUrl : string -> bool.

Lemma flat_map_nil {A B : Type} (f : A -> list B) (l : list A) a :
  flat_map f l = [] -> In a l -> f a = [].
Proof.
  induction l as [|x l IH]; simpl; [tauto|].
  intros H [<-|Hin]; apply app_eq_nil in H as [H1 H2]; auto.
Qed.

(** X11. The parse of the schema succeeds exactly when no key of the
    schema has an offending field in the specification's sense. *)
Theorem parse_succeeds_iff_no_field_offends (q : QueryParams) :
  (exists config, DynamicConfigSchema_parse isUrl q = inl config)
  <-> (forall key, In key schema_keys -> offending isUrl q key = false).
Proof.
  split.
  - intros [config Hparse] key Hkey.
    pose proof (flat_map_nil _ _ key (parse_success isUrl q config Hparse) Hkey) as Hnil.
    destruct (offending isUrl q key) eqn:Hoff; [|reflexivity].
    destruct (proj1 (field_issues_offending isUrl q key Hkey) Hoff) as [msg Hmsg].
    rewrite Hmsg in Hnil. discriminate.
  - intros Hnone. destruct (DynamicConfigSchema_parse isUrl q) as [config|errors] eqn:Hparse.
    + now exists config.
    + exfalso. destruct (parse_failure isUrl q errors Hparse) as [Herr Hne].
      destruct errors as [|e errors]; [now apply Hne|].
      assert (Hin : In e (flat_map (field_issues isUrl q) schema_keys))
        by (rewrite <- Herr; now left).
      apply in_flat_map in Hin as [key [Hkey Hin]].
      rewrite (proj2 (field_issues_offending isUrl q key Hkey) (Hnone key Hkey)) in Hin.
      destruct Hin.
Qed.

Lemma parse_fields (q : QueryParams) (config : DynamicConfig) :
  DynamicConfigSchema_parse isUrl q = inl config ->
  string_url isUrl "Invalid GitLab API URL" (prop q "api_url") = Valid (api_url config)
  /\ string_min1 "Access token is required" (prop q "access_token")
     = Valid (access_token config)
  /\ string_optional (prop q "project_id") = Valid (project_id config)
  /\ true_false (prop q "read_only") = Valid (read_only config)
  /\ true_false (prop q "use_wiki") = Valid (use_wiki config)
  /\ true_false (prop q "use_milestone") = Valid (use_milestone config)
  /\ true_false (prop q "use_pipeline") = Valid (use_pipeline config).
Proof.
  unfold DynamicConfigSchema_parse.
  generalize (string_url isUrl "Invalid GitLab API URL" (prop q "api_url")).
  generalize (string_min1 "Access token is required" (prop q "access_token")).
  generalize (string_optional (prop q "project_id")).
  generalize (true_false (prop q "read_only")).
  generalize (true_false (prop q "use_wiki")).
  generalize (true_false (prop q "use_milestone")).
  generalize (true_false (prop q "use_pipeline")).
  intros r7 r6 r5 r4 r3 r2 r1.
  destruct r1, r2, r3, r4, r5, r6, r7; intros H; try discriminate H.
  injection H as <-. repeat split.
Qed.

Lemma true_false_valid (v : JsValue) (f : TrueFalse) :
  true_false v = Valid f ->
  (f = LitTrue <-> v = JsStringValue "true")
  /\ (f = LitFalse <-> v = JsUndefined \/ v = JsStringValue "false").
Proof.
  destruct v as [|s|ty]; simpl.
  - intros [= <-]. split; split; intros H;
      try discriminate H; auto.
  - destruct (String.eqb s "true") eqn:Et.
    + apply String.eqb_eq in Et. subst s. intros [= <-].
      split; split; intros H; try discriminate H; auto.
      destruct H as [H|H]; discriminate H.
    + destruct (String.eqb s "false") eqn:Ef; [|discriminate].
      apply String.eqb_eq in Ef. subst s. intros [= <-].
      split; split; intros H; try discriminate H; auto.
  - discriminate.
Qed.

Lemma parse_success_fields_aux (q : QueryParams) (config : DynamicConfig) :
  DynamicConfigSchema_parse isUrl q = inl config ->
  isUrl (api_url config) = true /\ access_token config <> EmptyString.
Proof.
  intros Hparse.
  destruct (parse_fields q config Hparse) as (H1 & H2 & _).
  split.
  - unfold string_url in H1. destruct (prop q "api_url"); try discriminate.
    destruct (isUrl s) eqn:E; [now injection H1 as <-|discriminate].
  - unfold string_min1 in H2. destruct (prop q "access_token"); try discriminate.
    destruct s; simpl in H2; [discriminate|]. injection H2 as <-. discriminate.
Qed.

(** X12. A configuration that the parse returns carries the URL and the
    token of the input, the URL being one and the token not empty; its
    default project is the input's when that is a string and none when it
    is absent; and each toggle is the literal [true] exactly when the input
    gives that literal, and [false] when the input gives [false] or
    nothing. *)
Theorem parse_success_fields (q : QueryParams) (config : DynamicConfig) :
  DynamicConfigSchema_parse isUrl q = inl config ->
  prop q "api_url" = JsStringValue (api_url config)
  /\ isUrl (api_url config) = true
  /\ prop q "access_token" = JsStringValue (access_token config)
  /\ access_token config <> EmptyString
  /\ (prop q "project_id" = JsUndefined /\ project_id config = None
      \/ exists p, prop q "project_id" = JsStringValue p
                   /\ project_id config = Some p)
  /\ (forall key toggle,
        In (key, toggle)
           [("read_only", read_only config); ("use_wiki", use_wiki config);
            ("use_milestone", use_milestone config);
            ("use_pipeline", use_pipeline config)] ->
        (toggle = LitTrue <-> prop q key = JsStringValue "true")
        /\ (toggle = LitFalse
            <-> prop q key = JsUndefined \/ prop q key = JsStringValue "false")).
Proof.
  intros Hparse.
  destruct (parse_fields q config Hparse) as (H1 & H2 & H3 & H4 & H5 & H6 & H7).
  split; [|split; [|split; [|split; [|split]]]].
  - unfold string_url in H1. destruct (prop q "api_url"); try discriminate.
    destruct (isUrl s); [now injection H1 as ->|discriminate].
  - unfold string_url in H1. destruct (prop q "api_url"); try discriminate.
    destruct (isUrl s) eqn:E; [now injection H1 as <-|discriminate].
  - unfold string_min1 in H2. destruct (prop q "access_token"); try discriminate.
    destruct (String.length s <? 1)%nat; [discriminate|now injection H2 as ->].
  - unfold string_min1 in H2. destruct (prop q "access_token"); try discriminate.
    destruct s; simpl in H2; [discriminate|]. injection H2 as <-. discriminate.
  - unfold string_optional in H3. destruct (prop q "project_id") as [|p|ty];
      try discriminate; injection H3 as <-; [now left|right; now exists p].
  - intros key toggle Hin. simpl in Hin.
    destruct Hin as [E|[E|[E|[E|[]]]]]; injection E as <- <-;
      now apply true_false_valid.
Qed.

Lemma parse_validated (q : QueryParams) (config : DynamicConfig) :
  DynamicConfigSchema_parse isUrl q = inl config -> validated isUrl config.
Proof.
  intros H. destruct (parse_success_fields_aux q config H) as [H1 H2].
  now split.
Qed.

End Schema.

(** X12 on [Run.query]. *)
Lemma parse_success_fields_witness :
  Run.isUrl (api_url (Run.a_config (Some "42"))) = true.
Proof.
  refine (proj1 (proj2
    (parse_success_fields Run.isUrl Run.query (Run.a_config (Some "42")) _))).
  reflexivity.
Defined.

Lemma size_set_le {V : Type} (m : JsMap.t V) k v :
  (JsMap.size m <= JsMap.size (JsMap.set m k v) <= JsMap.size m + 1)%Z.
Proof.
  unfold JsMap.size. destruct (JsMap.has m k) eqn:E.
  - apply JsMapFacts.has_true_iff in E.
    rewrite JsMapFacts.length_set_present by exact E. lia.
  - apply JsMapFacts.has_false_iff, JsMapFacts.get_None_iff in E.
    rewrite (JsMapFacts.set_new _ _ _ E), length_app. simpl. lia.
Qed.

Lemma size_after_cleanup (k : Z) (m : Manager) :
  JsMap.wf (sessions m) ->
  (0 <= k <= JsMap.size (sessions m))%Z ->
  JsMap.size (sessions (cleanupOldestSessions k m))
  = (JsMap.size (sessions m) - k)%Z.
Proof.
  intros Hwf Hk. unfold JsMap.size in *.
  unfold cleanupOldestSessions. rewrite sessions_with_sessions.
  unfold oldestSessions, JsMap.entries.
  rewrite JsArrayFacts.slice0_firstn
    by (rewrite JsArrayFacts.sort_length; exact Hk).
  pose proof (Permutation_length
                (JsMapFacts.delete_all_prefix (sessions m)
                   (JsArray.sort byLastUsed (sessions m)) (Z.to_nat k) Hwf
                   (Permutation_sym (JsArrayFacts.sort_perm byLastUsed _)))) as Hp.
  rewrite length_skipn, JsArrayFacts.sort_length in Hp.
  unfold JsMap.t in *. rewrite Hp. lia.
Qed.

(** X14. After a creation with valid input the registry holds the new
    record under the session id, whether or not sessions were evicted; a
    lookup of that id returns the record with [lastUsed] refreshed while
    its idle age is within the timeout, and nothing once it is beyond. *)
Theorem create_then_get
    (isUrl : string -> bool) (created used now refreshed : Z) (sid : string)
    (q : QueryParams) (m : Manager) (config : DynamicConfig) :
  DynamicConfigSchema_parse isUrl q = inl config ->
  let record := Build_SessionConfig sid config created used in
  let m1 := snd (createSessionConfig isUrl created used sid q m) in
  fst (createSessionConfig isUrl created used sid q m) = Returned record
  /\ JsMap.get (sessions m1) sid = Some record
  /\ ((now - used <= sessionTimeout m)%Z ->
        fst (getSessionConfig now refreshed sid m1)
        = Some (Build_SessionConfig sid config created refreshed))
  /\ ((sessionTimeout m < now - used)%Z ->
        fst (getSessionConfig now refreshed sid m1) = None).
Proof.
  intros Hparse record m1.
  assert (Hget : JsMap.get (sessions m1) sid = Some record).
  { unfold m1, createSessionConfig. rewrite Hparse. simpl.
    apply JsMapFacts.get_set_same. }
  assert (Ht : sessionTimeout m1 = sessionTimeout m).
  { unfold m1, createSessionConfig. rewrite Hparse. simpl.
    destruct (maxSessions m <=? JsMap.size (sessions m))%Z; reflexivity. }
  split; [unfold createSessionConfig; now rewrite Hparse|].
  split; [exact Hget|]. split; intros H; unfold getSessionConfig;
    rewrite Hget, Ht; simpl.
  - destruct (Z.ltb_spec (sessionTimeout m) (now - used)); [lia|reflexivity].
  - destruct (Z.ltb_spec (sessionTimeout m) (now - used)); [reflexivity|lia].
Qed.

(** X14 on a new registry with the default limits. *)
Lemma create_then_get_witness :
  JsMap.get (sessions (snd (createSessionConfig Run.isUrl 5 6 "s" Run.query Run.fresh)))
            "s"
  = Some (Build_SessionConfig "s" (Run.a_config (Some "42")) 5 6).
Proof.
  refine (proj1 (proj2
    (create_then_get Run.isUrl 5 6 7 8 "s" Run.query Run.fresh
       (Run.a_config (Some "42")) _))).
  reflexivity.
Defined.

(** X15. For a capacity from 10 to 2048, a registry that holds at most its
    capacity still does after a creation: below capacity one session is
    added at most, and at capacity the eviction makes room first. *)
Theorem create_keeps_capacity
    (isUrl : string -> bool) (created used : Z) (sid : string)
    (q : QueryParams) (m : Manager) :
  JsMap.wf (sessions m) ->
  (10 <= maxSessions m <= 2048)%Z ->
  (getActiveSessionCount m <= maxSessions m)%Z ->
  (getActiveSessionCount (snd (createSessionConfig isUrl created used sid q m))
   <= maxSessions m)%Z.
Proof.
  intros Hwf Hmax Hsize. unfold getActiveSessionCount in *.
  unfold createSessionConfig.
  destruct (DynamicConfigSchema_parse isUrl q) as [config|errors]; [|exact Hsize].
  simpl.
  destruct (Z.leb_spec (maxSessions m) (JsMap.size (sessions m))) as [Hfull|Hroom].
  - assert (Hk : cleanupCount (maxSessions m) = (maxSessions m / 10)%Z).
    { apply (SessionRegistrySpec.cleanupCount_below 2049);
        [exact SessionRegistrySpec.cleanupCount_checked|lia]. }
    assert (Hk1 : (1 <= maxSessions m / 10 <= maxSessions m)%Z).
    { split; [apply Z.div_le_lower_bound; lia|].
      apply Z.div_le_upper_bound; lia. }
    pose proof (size_after_cleanup (cleanupCount (maxSessions m)) m Hwf) as Hc.
    rewrite Hk in *.
    pose proof (size_set_le (sessions (cleanupOldestSessions (maxSessions m / 10) m))
                  sid (Build_SessionConfig sid config created used)) as Hs.
    rewrite Hc in Hs by lia. lia.
  - pose proof (size_set_le (sessions m) sid
                  (Build_SessionConfig sid config created used)) as Hs. lia.
Qed.

(** X15 on the full registry [Run.twenty]. *)
Lemma create_keeps_capacity_witness :
  (getActiveSessionCount
     (snd (createSessionConfig Run.isUrl 600 601 "c0" Run.query Run.twenty))
   <= 20)%Z.
Proof.
  refine (create_keeps_capacity Run.isUrl 600 601 "c0" Run.query Run.twenty _ _ _).
  - distinct_strings.
  - simpl. lia.
  - vm_compute. discriminate.
Defined.

(** X16. [removeSessionConfig] reports whether the id was held; afterwards
    the id is absent, every other id holds what it held, and the count is
    one less when the id was held and the same when it was not. *)
Theorem remove_deletes_one_session (sid : string) (m : Manager) :
  JsMap.wf (sessions m) ->
  let m1 := snd (removeSessionConfig sid m) in
  fst (removeSessionConfig sid m) = JsMap.has (sessions m) sid
  /\ JsMap.get (sessions m1) sid = None
  /\ (forall other, other <> sid ->
        JsMap.get (sessions m1) other = JsMap.get (sessions m) other)
  /\ getActiveSessionCount m1
     = (getActiveSessionCount m - if JsMap.has (sessions m) sid then 1 else 0)%Z.
Proof.
  intros Hwf. simpl. split; [reflexivity|].
  split; [apply JsMapFacts.get_delete_same|]. split.
  - intros other Hne. apply JsMapFacts.get_delete_other. congruence.
  - unfold getActiveSessionCount, JsMap.size, JsMap.has. simpl.
    destruct (JsMap.get (sessions m) sid) eqn:E.
    + pose proof (JsMapFacts.length_delete_present _ _ _ Hwf E). lia.
    + apply JsMapFacts.get_None_iff in E.
      unfold JsMap.delete. rewrite filter_all; [lia|].
      intros [k v] Hin. simpl. apply negb_true_iff, String.eqb_neq.
      intros ->. apply E. now apply (in_map fst) in Hin.
Qed.

(** X16 on [Run.five]. *)
Lemma remove_deletes_one_session_witness :
  getActiveSessionCount (snd (removeSessionConfig "s2" Run.five)) = (5 - 1)%Z.
Proof.
  refine (proj2 (proj2 (proj2 (remove_deletes_one_session "s2" Run.five _)))).
  distinct_strings.
Defined.

(** X17. A sweep keeps every session whose idle age is within the timeout,
    as it is, removes every other one, and a second sweep at the same time
    changes nothing. *)
Theorem sweep_keeps_fresh_sessions (now : Z) (m : Manager) :
  JsMap.wf (sessions m) ->
  (forall sid session,
     JsMap.get (sessions m) sid = Some session ->
     JsMap.get (sessions (cleanupExpiredSessions now m)) sid
     = if (sessionTimeout m <? now - lastUsed session)%Z then None
       else Some session)
  /\ (forall sid, JsMap.get (sessions m) sid = None ->
        JsMap.get (sessions (cleanupExpiredSessions now m)) sid = None)
  /\ cleanupExpiredSessions now (cleanupExpiredSessions now m)
     = cleanupExpiredSessions now m.
Proof.
  intros Hwf.
  assert (Hsw : forall m', JsMap.wf (sessions m') ->
            cleanupExpiredSessions now m'
            = with_sessions m'
                (filter (fun e => negb (expired m' now (snd e))) (sessions m'))).
  { intros m' Hwf'. unfold cleanupExpiredSessions. f_equal.
    unfold JsMap.entries. now apply JsMapFacts.delete_all_selected. }
  split; [|split].
  - intros sid session Hget.
    rewrite (Hsw m Hwf), sessions_with_sessions,
      (JsMapFacts.get_filter _ _ _ Hwf), Hget. simpl.
    unfold expired. now destruct (sessionTimeout m <? now - lastUsed session)%Z.
  - intros sid Hget.
    rewrite (Hsw m Hwf), sessions_with_sessions,
      (JsMapFacts.get_filter _ _ _ Hwf), Hget. reflexivity.
  - rewrite (Hsw _ (cleanupExpiredSessions_wf now m Hwf)).
    rewrite (Hsw m Hwf). unfold with_sessions. simpl. f_equal.
    apply filter_all. intros e He. apply filter_In in He as [_ He]. exact He.
Qed.

(** X17 on [Run.five] at a time when only [s3] and [s1] have expired. *)
Lemma sweep_keeps_fresh_sessions_witness :
  JsMap.get (sessions (cleanupExpiredSessions 3600025 Run.five)) "s4"
  = Some (snd (Run.a_session "s4" 30)).
Proof.
  refine (proj1 (sweep_keeps_fresh_sessions 3600025 Run.five _) "s4"
            (snd (Run.a_session "s4" 30)) _).
  - distinct_strings.
  - reflexivity.
Defined.

(** X18. A lookup of one id leaves every other id as it is and does not
    change the limits; a lookup of an id the registry does not hold returns
    nothing and leaves the registry unchanged. *)
Theorem lookup_leaves_other_sessions
    (now refreshed : Z) (sid other : string) (m : Manager) :
  other <> sid ->
  let m1 := snd (getSessionConfig now refreshed sid m) in
  JsMap.get (sessions m1) other = JsMap.get (sessions m) other
  /\ maxSessions m1 = maxSessions m
  /\ sessionTimeout m1 = sessionTimeout m
  /\ (JsMap.get (sessions m) sid = None ->
        getSessionConfig now refreshed sid m = (None, m)).
Proof.
  intros Hne. unfold getSessionConfig.
  destruct (JsMap.get (sessions m) sid) as [session|]; simpl.
  - destruct (sessionTimeout m <? now - lastUsed session)%Z; simpl.
    + split; [apply JsMapFacts.get_delete_other; congruence|].
      repeat split. discriminate.
    + split; [apply JsMapFacts.get_set_other; congruence|].
      repeat split. discriminate.
  - repeat split.
Qed.

(** X18 on [Run.five]: an expiring lookup of [s3] leaves [s4]. *)
Lemma lookup_leaves_other_sessions_witness :
  JsMap.get (sessions (snd (getSessionConfig 3600011 3600012 "s3" Run.five))) "s4"
  = JsMap.get (sessions Run.five) "s4".
Proof.
  refine (proj1 (lookup_leaves_other_sessions 3600011 3600012 "s3" "s4" Run.five _)).
  discriminate.
Defined.

Section Invariant.
Variable isUrl : string -> bool.
Variables max timeout : Z.

Lemma In_delete_all {V : Type} (m : JsMap.t V) ks e :
  In e (JsMap.delete_all m ks) -> In e m.
Proof.
  rewrite JsMapFacts.delete_all_filter. intros H.
  now apply filter_In in H as [H _].
Qed.

Lemma registry_ok_step (m : Manager) (c : RegistryCall) :
  registry_ok isUrl max timeout m ->
  registry_ok isUrl max timeout (registry_step isUrl m c).
Proof.
  intros Hok. pose proof Hok as (Hwf & Hmax & Htime & Hin).
  destruct c as [created used sid q|now refreshed sid|sid|now];
    cbn [registry_step].
  - unfold createSessionConfig.
    destruct (DynamicConfigSchema_parse isUrl q) as [config|errors] eqn:Hparse;
      cbn [snd]; [|exact Hok].
    assert (Hv : validated isUrl config)
      by (exact (parse_success_fields_aux isUrl q config Hparse)).
    set (m1 := if (maxSessions m <=? JsMap.size (sessions m))%Z
               then cleanupOldestSessions (cleanupCount (maxSessions m)) m
               else m).
    assert (H1 : JsMap.wf (sessions m1)
                 /\ maxSessions m1 = max /\ sessionTimeout m1 = timeout
                 /\ forall e, In e (sessions m1) -> In e (sessions m)).
    { unfold m1. destruct (maxSessions m <=? JsMap.size (sessions m))%Z.
      - unfold cleanupOldestSessions, with_sessions. cbn [sessions maxSessions sessionTimeout].
        split; [now apply JsMapFacts.wf_delete_all|].
        split; [exact Hmax|]. split; [exact Htime|].
        intros e. apply In_delete_all.
      - now repeat split. }
    destruct H1 as (Hwf1 & Hmax1 & Htime1 & Hsub1).
    unfold with_sessions. cbn [sessions maxSessions sessionTimeout].
    split; [now apply JsMapFacts.wf_set|].
    split; [exact Hmax1|]. split; [exact Htime1|].
    intros k s H. apply JsMapFacts.In_set in H as [E|H].
    + injection E as -> ->. simpl. now split.
    + apply Hin. now apply Hsub1.
  - unfold getSessionConfig.
    destruct (JsMap.get (sessions m) sid) as [session|] eqn:Hget;
      [|exact Hok].
    destruct (sessionTimeout m <? now - lastUsed session)%Z; cbn [snd];
      unfold with_sessions; cbn [sessions maxSessions sessionTimeout].
    + split; [now apply JsMapFacts.wf_delete|].
      split; [exact Hmax|]. split; [exact Htime|].
      intros k s H. apply filter_In in H as [H _]. now apply Hin.
    + split; [now apply JsMapFacts.wf_set|].
      split; [exact Hmax|]. split; [exact Htime|].
      intros k s H. apply JsMapFacts.In_set in H as [E|H]; [|now apply Hin].
      injection E as -> ->. simpl.
      apply JsMapFacts.get_Some_In in Hget. now apply Hin.
  - unfold removeSessionConfig, with_sessions.
    cbn [snd sessions maxSessions sessionTimeout].
    split; [now apply JsMapFacts.wf_delete|].
    split; [exact Hmax|]. split; [exact Htime|].
    intros k s H. apply filter_In in H as [H _]. now apply Hin.
  - unfold cleanupExpiredSessions, with_sessions.
    cbn [sessions maxSessions sessionTimeout].
    split; [now apply JsMapFacts.wf_delete_all|].
    split; [exact Hmax|]. split; [exact Htime|].
    intros k s H. apply In_delete_all in H. now apply Hin.
Qed.

Lemma registry_ok_run (calls : list RegistryCall) (m : Manager) :
  registry_ok isUrl max timeout m ->
  registry_ok isUrl max timeout (registry_run isUrl m calls).
Proof.
  revert m. induction calls as [|c calls IH]; intros m Hok; simpl; [exact Hok|].
  apply IH. now apply registry_ok_step.
Qed.

(** X19. Whatever creations, lookups, removals and sweeps a registry has
    gone through since it was constructed without sessions, no session id
    is held twice, every record is filed under its own session id and
    carries a validated configuration, and the capacity and the timeout
    are those it was constructed with. *)
Theorem registry_keeps_its_invariant (calls : list RegistryCall) :
  let m := registry_run isUrl (Build_Manager JsMap.empty max timeout) calls in
  JsMap.wf (sessions m)
  /\ (forall k s, JsMap.get (sessions m) k = Some s ->
        sessionId s = k /\ validated isUrl (config s))
  /\ maxSessions m = max
  /\ sessionTimeout m = timeout.
Proof.
  intros m.
  assert (Hok : registry_ok isUrl max timeout m).
  { apply registry_ok_run. unfold registry_ok. simpl.
    split; [apply JsMapFacts.wf_empty|]. repeat split; contradiction. }
  destruct Hok as (Hwf & Hmax & Htime & Hin).
  split; [exact Hwf|]. split; [|now split].
  intros k s Hget. apply Hin. now apply JsMapFacts.get_Some_In.
Qed.

End Invariant.
End SessionRegistryMore.

(* ================================================================== *)
(** * SessionApiClient and ClientPool: further properties *)
(* ================================================================== *)

Module ClientMore.
Import Config Client ClientFacts ListFacts.

(** X20. For a client whose configuration the parse returned from an
    input: the client is read-only exactly when the input gives
    [read_only] as the literal [true]; then [validateWriteOperation]
    throws, for every operation, an error whose message holds the name of
    the operation and the session id; otherwise it returns. Each feature
    query likewise answers whether the input gives its toggle as [true]. *)
Theorem write_gate_follows_input
    (isUrl : string -> bool) (q : QueryParams) (c : SessionAwareGitLabClient) :
  DynamicConfigSchema_parse isUrl q = inl (config (sessionConfig c)) ->
  (isReadOnly c = true <-> prop q "read_only" = JsStringValue "true")
  /\ (forall operation,
        if isReadOnly c then
          exists message,
            validateWriteOperation c operation = Thrown message
            /\ JsString.substring_of operation message
            /\ JsString.substring_of (sessionId (sessionConfig c)) message
        else validateWriteOperation c operation = Returned tt)
  /\ (isWikiEnabled c = true <-> prop q "use_wiki" = JsStringValue "true")
  /\ (isMilestoneEnabled c = true <-> prop q "use_milestone" = JsStringValue "true")
  /\ (isPipelineEnabled c = true <-> prop q "use_pipeline" = JsStringValue "true").
Proof.
  intros Hparse.
  destruct (SessionRegistryMore.parse_fields isUrl q _ Hparse)
    as (_ & _ & _ & H4 & H5 & H6 & H7).
  assert (Hflag : forall v f, true_false v = Valid f ->
                    (is_true f = true <-> v = JsStringValue "true")).
  { intros v f H.
    destruct (SessionRegistryMore.true_false_valid v f H) as [Ht _].
    rewrite <- Ht. destruct f; simpl; split; congruence. }
  split; [exact (Hflag _ _ H4)|]. split; [|split; [|split]].
  - intros operation. unfold validateWriteOperation.
    destruct (isReadOnly c).
    + eexists. split; [reflexivity|]. split.
      * exists "Write operation '",
          ("' is not allowed in read-only mode for session "
           ++ sessionId (sessionConfig c))%string.
        reflexivity.
      * exists ("Write operation '" ++ operation
                ++ "' is not allowed in read-only mode for session ")%string,
          EmptyString.
        rewrite ConfigFacts.append_nil_r, !ConfigFacts.append_assoc. reflexivity.
    + reflexivity.
  - exact (Hflag _ _ H5).
  - exact (Hflag _ _ H6).
  - exact (Hflag _ _ H7).
Qed.

(** X20 on the client of [Run.first_record], whose input names no toggle. *)
Lemma write_gate_follows_input_witness :
  validateWriteOperation Run.a_client "create_issue" = Returned tt.
Proof.
  refine (proj1 (proj2
    (write_gate_follows_input Run.isUrl Run.query Run.a_client _)) "create_issue").
  reflexivity.
Defined.

Lemma size_set_absent {V : Type} (m : JsMap.t V) k v :
  JsMap.get m k = None -> JsMap.size (JsMap.set m k v) = (JsMap.size m + 1)%Z.
Proof.
  intros E. unfold JsMap.size.
  rewrite (JsMapFacts.set_new _ _ _ E), length_app. simpl. lia.
Qed.

(** X21. In a pool reached from a new one by any calls, once the client of
    a session id has been removed, or the pool cleared, [getClient] with a
    record of that id constructs a client bound to that record; it is a
    new object, none of those the pool held. A cleared pool counts no
    client, and a removal lowers the count by one exactly when it reports
    that the id held a client. *)
Theorem removed_client_is_rebuilt
    (env : Env) (calls : list Call) (sc : SessionConfig) :
  let p := run env new_pool calls in
  let rebuilt := new_client env (constructed p) sc in
  fst (getClient env sc (snd (removeClient (sessionId sc) p))) = rebuilt
  /\ fst (getClient env sc (clearAll p)) = rebuilt
  /\ sessionConfig rebuilt = sc
  /\ (forall k c, JsMap.get (clients p) k = Some c -> ref c <> ref rebuilt)
  /\ getActiveClientCount (clearAll p) = 0%Z
  /\ fst (removeClient (sessionId sc) p) = JsMap.has (clients p) (sessionId sc)
  /\ getActiveClientCount (snd (removeClient (sessionId sc) p))
     = (getActiveClientCount p
        - if fst (removeClient (sessionId sc) p) then 1 else 0)%Z.
Proof.
  intros p rebuilt.
  assert (Hok : pool_ok p) by (apply pool_ok_run, pool_ok_new).
  destruct Hok as (Hwf & _ & Hin).
  split; [|split; [|split; [|split; [|split; [|split]]]]].
  - unfold getClient, removeClient. cbn [snd clients constructed].
    now rewrite JsMapFacts.get_delete_same.
  - reflexivity.
  - reflexivity.
  - intros k c Hget. apply JsMapFacts.get_Some_In in Hget.
    destruct (Hin k c Hget) as [Hlt _]. simpl. lia.
  - reflexivity.
  - reflexivity.
  - unfold removeClient, getActiveClientCount, JsMap.size, JsMap.has.
    cbn [fst snd clients].
    destruct (JsMap.get (clients p) (sessionId sc)) eqn:E.
    + pose proof (JsMapFacts.length_delete_present _ _ _ Hwf E). lia.
    + apply JsMapFacts.get_None_iff in E.
      unfold JsMap.delete. rewrite filter_all; [lia|].
      intros [k v] Hk. simpl. apply negb_true_iff, String.eqb_neq.
      intros ->. apply E. now apply (in_map fst) in Hk.
Qed.

(** X22. A client gets no proxy agent exactly when neither proxy variable
    holds a non-empty value, or the configured URL cannot be parsed, or the
    agent constructor picked for its protocol refuses the proxy. An agent
    it gets carries [HTTP_PROXY] when that is set and not empty, also for
    an https target, and [HTTPS_PROXY] otherwise; it is the https kind
    exactly when the protocol of the configured URL is [https:]. *)
Theorem proxy_agent_choice (env : Env) (sc : SessionConfig) :
  let chosen := or_string (or (HTTP_PROXY env) (HTTPS_PROXY env)) EmptyString in
  (setupProxyAgent env sc = None
   <-> chosen = EmptyString
       \/ urlProtocol env (api_url (config sc)) = None
       \/ exists protocol,
            urlProtocol env (api_url (config sc)) = Some protocol
            /\ agent_accepts env protocol chosen = false)
  /\ (forall a, setupProxyAgent env sc = Some a ->
        agent_proxy a = chosen
        /\ (is_https_agent a = true
            <-> urlProtocol env (api_url (config sc)) = Some "https:"))
  /\ (forall p, HTTP_PROXY env = Some p -> p <> EmptyString -> chosen = p).
Proof.
  assert (Hhttp : forall p, HTTP_PROXY env = Some p -> p <> EmptyString ->
            or (HTTP_PROXY env) (HTTPS_PROXY env) = Some p).
  { intros p Hp Hne. unfold or. rewrite Hp. destruct p; [contradiction|reflexivity]. }
  unfold setupProxyAgent, or_string, agent_accepts.
  destruct (or (HTTP_PROXY env) (HTTPS_PROXY env)) as [proxyUrl|] eqn:Eor.
  - destruct proxyUrl as [|ch rest]; cbn [JsString.truthy].
    + split; [split; [now left|reflexivity]|]. split; [discriminate|].
      intros p Hp Hne. specialize (Hhttp p Hp Hne).
      assert (Hp' : p = EmptyString) by congruence. contradiction.
    + split; [|split].
      * destruct (urlProtocol env (api_url (config sc))) as [protocol|];
          [|split; [right; now left|reflexivity]].
        destruct (String.eqb protocol "https:") eqn:E.
        -- destruct (httpsProxyAgentAccepts env (String ch rest)) eqn:Ea.
           ++ split; [discriminate|]. intros [H|[H|(pr & Hpr & Hacc)]];
                try discriminate.
              injection Hpr as <-. rewrite E in Hacc. congruence.
           ++ split; [|reflexivity]. intros _. right. right.
              exists protocol. split; [reflexivity|]. now rewrite E.
        -- destruct (httpProxyAgentAccepts env (String ch rest)) eqn:Ea.
           ++ split; [discriminate|]. intros [H|[H|(pr & Hpr & Hacc)]];
                try discriminate.
              injection Hpr as <-. rewrite E in Hacc. congruence.
           ++ split; [|reflexivity]. intros _. right. right.
              exists protocol. split; [reflexivity|]. now rewrite E.
      * intros a. destruct (urlProtocol env (api_url (config sc))) as [protocol|];
          [|discriminate].
        destruct (String.eqb protocol "https:") eqn:E.
        -- destruct (httpsProxyAgentAccepts env (String ch rest)); [|discriminate].
           intros [= <-]. simpl. apply String.eqb_eq in E. subst.
           split; [reflexivity|tauto].
        -- destruct (httpProxyAgentAccepts env (String ch rest)); [|discriminate].
           intros [= <-]. simpl. apply String.eqb_neq in E.
           split; [reflexivity|]. split; [discriminate|].
           intros [= H]. contradiction.
      * intros p Hp Hne. specialize (Hhttp p Hp Hne).
        assert (Hp' : p = String ch rest) by congruence. now rewrite Hp'.
  - split; [split; [now left|reflexivity]|]. split; [discriminate|].
    intros p Hp Hne. specialize (Hhttp p Hp Hne). congruence.
Qed.

(** With a proxy variable that holds no URL the agent constructor throws
    and the client is left without agent; with both variables set the
    agent carries [HTTP_PROXY], also for an https target. *)
Example refused_proxy_leaves_no_agent :
  setupProxyAgent Run.env_bad_proxy Run.first_record = None
  /\ setupProxyAgent Run.env_proxies Run.first_record
     = Some (HttpsProxyAgent "http://proxy.example:3128").
Proof. split; reflexivity. Qed.

Lemma drop_trailing_added (s : string) :
  JsString.drop_trailing_slash (s ++ "/") = s.
Proof.
  induction s as [|c s IH]; [reflexivity|].
  simpl. rewrite IH. destruct s; reflexivity.
Qed.

Lemma drop_trailing_none (s : string) :
  JsString.last_char s <> Some "/"%char -> JsString.drop_trailing_slash s = s.
Proof.
  induction s as [|c s IH]; [reflexivity|].
  simpl. destruct s as [|d s].
  - intros H. destruct (Ascii.eqb_spec c "/"); [subst; contradiction|reflexivity].
  - intros H. now rewrite IH.
Qed.

Lemma drop_leading_none (s : string) :
  JsString.first_char s <> Some "/"%char -> JsString.drop_leading_slash s = s.
Proof.
  destruct s as [|c s]; [reflexivity|]. simpl.
  intros H. destruct (Ascii.eqb_spec c "/"); [subst; contradiction|reflexivity].
Qed.

(** X23. [request] joins the configured URL and the endpoint with one
    slash and tolerates one slash on either side: when the URL does not
    end in a slash and the endpoint does not begin with one, the address
    is the URL, a slash and the endpoint, and it is the same address when
    the endpoint is given with a leading slash or the URL is configured
    with a trailing one. Only one slash is dropped on each side. *)
Theorem request_url_tolerates_slashes
    (c c' : SessionAwareGitLabClient) (endpoint : string) :
  JsString.last_char (api_url (config (sessionConfig c))) <> Some "/"%char ->
  JsString.first_char endpoint <> Some "/"%char ->
  api_url (config (sessionConfig c'))
  = (api_url (config (sessionConfig c)) ++ "/")%string ->
  let address := (api_url (config (sessionConfig c)) ++ "/" ++ endpoint)%string in
  request_url c endpoint = address
  /\ request_url c (String "/" endpoint) = address
  /\ request_url c' endpoint = address
  /\ request_url c' (String "/" endpoint) = address
  /\ request_url c' (String "/" (String "/" endpoint))
     = (api_url (config (sessionConfig c)) ++ "/" ++ String "/" endpoint)%string.
Proof.
  intros Hbase Hend Hc' address. unfold request_url. rewrite Hc'.
  rewrite drop_trailing_added, (drop_trailing_none _ Hbase),
    (drop_leading_none _ Hend).
  repeat split.
Qed.

(** X23 on [Run.a_client] and the client configured with a trailing slash. *)
Lemma request_url_tolerates_slashes_witness :
  request_url Run.a_client_slash "/projects/42"
  = "https://gitlab.example/api/v4/projects/42".
Proof.
  refine (proj1 (proj2 (proj2 (proj2
    (request_url_tolerates_slashes Run.a_client Run.a_client_slash
       "projects/42" _ _ _))))).
  - discriminate.
  - discriminate.
  - reflexivity.
Defined.

Lemma get_assign {V : Type} (target source : JsMap.t V) k :
  JsMap.wf source ->
  JsMap.get (JsMap.assign target source) k
  = match JsMap.get source k with
    | Some v => Some v
    | None => JsMap.get target k
    end.
Proof.
  unfold JsMap.assign, JsMap.wf. revert target.
  induction source as [|[k' v'] source IH]; intros target Hnd; simpl;
    [reflexivity|].
  inversion Hnd as [|? ? Hnotin Hnd']; subst.
  rewrite (IH _ Hnd').
  destruct (String.eqb k' k) eqn:E.
  - apply String.eqb_eq in E. subst k'.
    assert (Hn : JsMap.get source k = None) by now apply JsMapFacts.get_None_iff.
    rewrite Hn. apply JsMapFacts.get_set_same.
  - apply String.eqb_neq in E.
    destruct (JsMap.get source k); [reflexivity|].
    now apply JsMapFacts.get_set_other.
Qed.

(** X24. [request] builds the body before it calls [fetch]: that fails
    exactly when the body is a value, not a string, on which
    [JSON.stringify] throws, and with that error. Otherwise, in the options
    passed to [fetch], a header the caller gives takes the caller's value,
    also for [Authorization] and [Content-Type]; every other header has the
    default, which is the bearer token and the JSON content type; the
    method is [GET] unless the caller names another non-empty one; the
    agent is the client's. No body is sent exactly when the body is falsy,
    the empty string, or a value for which [JSON.stringify] returns
    [undefined]; a non-empty string is sent as it is, and any other value
    as [JSON.stringify] returns it. *)
Theorem request_options_override
    {V : Type} (stringify : V -> Outcome (option string))
    (c : SessionAwareGitLabClient)
    (method : option string) (body : Body V) (headers : JsMap.t string) :
  JsMap.wf headers ->
  let options := Build_Options method body (Some headers) in
  (forall message,
     request_body stringify options = Thrown message
     <-> exists v, body = BodyValue v /\ stringify v = Thrown message)
  /\ (forall sent, request_body stringify options = Returned sent ->
      let init := request_options c options sent in
      (forall k, JsMap.get (init_headers init) k
                 = match JsMap.get headers k with
                   | Some v => Some v
                   | None => JsMap.get (default_headers c) k
                   end)
      /\ JsMap.get (default_headers c) "Authorization"
         = Some ("Bearer " ++ access_token (config (sessionConfig c)))%string
      /\ (init_method init = "GET"
          <-> method = None \/ method = Some EmptyString \/ method = Some "GET")
      /\ (init_body init = None
          <-> body = @BodyNone V \/ body = BodyString EmptyString
              \/ exists v, body = BodyValue v /\ stringify v = Returned None)
      /\ (forall s, body = BodyString s -> s <> EmptyString ->
            init_body init = Some s)
      /\ (forall v, body = BodyValue v -> stringify v = Returned (init_body init))
      /\ init_agent init = agent c).
Proof.
  intros Hwf options. split.
  - intros message. unfold request_body. cbn [opt_body options].
    destruct body as [|s|v].
    + split; [discriminate|]. intros (v & H & _). discriminate.
    + split; [discriminate|]. intros (v & H & _). discriminate.
    + split.
      * intros H. now exists v.
      * intros (v' & H & Hs). now injection H as <-.
  - intros sent Hsent init.
    split; [|split; [|split; [|split; [|split; [|split]]]]].
    + intros k. unfold init, request_options.
      cbn [init_headers opt_headers options]. now apply get_assign.
    + reflexivity.
    + unfold init, request_options. cbn [init_method opt_method options].
      unfold or_string.
      destruct method as [[|ch rest]|]; cbn [JsString.truthy].
      * split; auto.
      * split; [intros ->; auto|].
        intros [H|[H|H]]; try discriminate. congruence.
      * split; auto.
    + unfold init, request_options. cbn [init_body].
      unfold request_body in Hsent. cbn [opt_body options] in Hsent.
      destruct body as [|[|ch rest]|v]; cbn [JsString.truthy] in Hsent.
      * injection Hsent as <-. split; auto.
      * injection Hsent as <-. split; auto.
      * injection Hsent as <-. split; [discriminate|].
        intros [H|[H|(v & H & _)]]; discriminate.
      * split.
        -- intros ->. right. right. now exists v.
        -- intros [H|[H|(v' & H & Hs)]]; try discriminate.
           injection H as <-. congruence.
    + intros s -> Hs. unfold init, request_options. cbn [init_body].
      unfold request_body in Hsent. cbn [opt_body options] in Hsent.
      destruct s; [contradiction|]. cbn [JsString.truthy] in Hsent.
      now injection Hsent as <-.
    + intros v ->. exact Hsent.
    + reflexivity.
Qed.

(** X24 on [Run.caller_headers]: the caller's content type replaces the
    default. *)
Lemma request_options_override_witness :
  JsMap.get
    (init_headers
       (request_options Run.a_client
          (Build_Options None (@BodyNone string) (Some Run.caller_headers))
          None))
    "Content-Type"
  = Some "text/plain".
Proof.
  refine (proj1
    (proj2
       (request_options_override (fun s : string => Returned (Some s))
          Run.a_client None (@BodyNone string) Run.caller_headers _)
       None eq_refl) "Content-Type").
  repeat constructor; simpl; intuition discriminate.
Defined.

(** X25. [request] returns a value only when the body was built and
    [fetch] resolved with an ok response: the parsed JSON when the response
    declares a content type that includes [application/json], the text
    otherwise. When [JSON.stringify] throws on the body, or [fetch] fails,
    the error is thrown unchanged, and a response that is not ok throws an
    error whose message holds the status and the response text. *)
Theorem request_outcome
    {V Json : Type} (stringify : V -> Outcome (option string))
    (fetch : string -> RequestInit -> Outcome (Response Json))
    (c : SessionAwareGitLabClient) (endpoint : string) (options : Options V) :
  let answer body := fetch (request_url c endpoint) (request_options c options body) in
  (forall v, request stringify fetch c endpoint options = Returned v ->
     exists body r,
       request_body stringify options = Returned body
       /\ answer body = Returned r /\ ok r = true
       /\ match v with
          | inl parsed =>
              json r = Returned parsed
              /\ exists contentType,
                   content_type r = Some contentType
                   /\ JsString.includes "application/json" contentType = true
          | inr text_ => text r = Returned text_
          end)
  /\ (forall message, request_body stringify options = Thrown message ->
        request stringify fetch c endpoint options = Thrown message)
  /\ (forall body message,
        request_body stringify options = Returned body ->
        answer body = Thrown message ->
        request stringify fetch c endpoint options = Thrown message)
  /\ (forall body r errorText,
        request_body stringify options = Returned body ->
        answer body = Returned r -> ok r = false ->
        text r = Returned errorText ->
        request stringify fetch c endpoint options
        = Thrown ("GitLab API error (" ++ JsString.of_integer (status r)
                  ++ "): " ++ errorText)%string).
Proof.
  intros answer. unfold request.
  split; [|split; [|split]].
  - intros v. destruct (request_body stringify options) as [body|m]; [|discriminate].
    fold (answer body).
    destruct (answer body) as [r|message] eqn:Ea; [|discriminate].
    destruct (ok r) eqn:Eok; simpl.
    + intros H. exists body, r. split; [reflexivity|].
      split; [exact Ea|]. split; [exact Eok|].
      destruct (content_type r) as [contentType|] eqn:Ect.
      * destruct (JsString.truthy contentType
                  && JsString.includes "application/json" contentType) eqn:Ej.
        -- destruct (json r) as [parsed|m]; simpl in H; [|discriminate].
           injection H as <-. split; [reflexivity|].
           exists contentType. split; [reflexivity|].
           now apply andb_true_iff in Ej.
        -- destruct (text r) as [t|m]; simpl in H; [|discriminate].
           now injection H as <-.
      * destruct (text r) as [t|m]; simpl in H; [|discriminate].
        now injection H as <-.
    + destruct (text r); discriminate.
  - intros message ->. reflexivity.
  - intros body message -> Ha. unfold answer in Ha. now rewrite Ha.
  - intros body r errorText -> Ha Hok Htext. unfold answer in Ha.
    now rewrite Ha, Hok, Htext.
Qed.

End ClientMore.
